(** * Real-time synchronisation client of the hotel operations dashboard

    A shallow embedding of the client-side store slices
    ([store/requestsSlice.ts], [store/feedbackSlice.ts], [store/store.ts])
    and of the [useWebSocket] hook ([hooks/useWebSocket.ts]), with the
    properties of the retry policy, the connection life cycle and the
    update dispatcher proved over it. *)

From stdpp Require Import prelude strings.

Local Open Scope Z_scope.

(** ** Record types ([types/index.ts]) *)

(** TypeScript [number] fields that hold database keys are integers. *)

Module Guest.
Record t := mk {
    id : Z;
    first_name : string;
    last_name : string;
    email : string;
    phone : option string;
    created_at : string;
  }.
End Guest.

Module Room.
Record t := mk {
    id : Z;
    room_number : string;
    room_type : string;
    floor : Z;
    created_at : string;
  }.
End Room.

Inductive RequestStatus := Pending | InProgress | Completed.
Inductive Sentiment := Positive | Negative | Neutral.

Module Request.
Record t := mk {
    id : Z;
    guest_id : Z;
    room_id : Z;
    category : string;
    description : string;
    status : RequestStatus;
    created_at : string;
    updated_at : string;
    guest : option Guest.t;
    room : option Room.t;
  }.
End Request.

Module Feedback.
Record t := mk {
    id : Z;
    guest_id : Z;
    room_id : Z;
    message : string;
    sentiment : Sentiment;
    smart_response : option string;
    created_at : string;
    guest : option Guest.t;
    room : option Room.t;
  }.
End Feedback.

(** Both record types carry the numeric identifier the reducers match on. *)
Class Keyed (T : Type) := ident : T → Z.

#[export] Instance Request_keyed : Keyed Request.t := Request.id.
#[export] Instance Feedback_keyed : Keyed Feedback.t := Feedback.id.

(** ** Slices

    [requestsSlice.ts] and [feedbackSlice.ts] are the same code at two
    record types; the case reducers are written once, over any [Keyed]
    record type, and instantiated below under the source's names. *)

Record SliceState (T : Type) := mkSlice {
  items : list T;
  loading : bool;
  error : option string;
}.
Arguments mkSlice {T} _ _ _.
Arguments items {T} _.
Arguments loading {T} _.
Arguments error {T} _.

(** [Array.prototype.findIndex]: the index of the first element satisfying
    the predicate, scanning from the front, or [-1]. *)
Fixpoint findIndex_from {T : Type} (p : T → bool) (l : list T) (i : Z) : Z :=
  match l with
  | [] => -1
  | x :: l' => if p x then i else findIndex_from p l' (i + 1)
  end.

Definition findIndex {T : Type} (p : T → bool) (l : list T) : Z :=
  findIndex_from p l 0.

Module Slice.
Section Generic.
Context {T : Type} `{Keyed T}.

Definition initialState : SliceState T :=
    {| items := []; loading := false; error := None |}.

(** [setRequests] / [setFeedback] *)
Definition setItems (state : SliceState T) (payload : list T) : SliceState T :=
    {| items := payload; loading := false; error := error state |}.

(** [addRequest] / [addFeedback]: [state.items.unshift(action.payload)] *)
Definition addItem (state : SliceState T) (payload : T) : SliceState T :=
    {| items := payload :: items state;
       loading := loading state; error := error state |}.

(** [updateRequest] / [updateFeedback] *)
Definition updateItem (state : SliceState T) (payload : T) : SliceState T :=
    let index := findIndex (λ r, ident r =? ident payload) (items state) in
    if negb (index =? -1) then
      {| items := <[Z.to_nat index := payload]> (items state);
         loading := loading state; error := error state |}
    else state.

Definition setLoading (state : SliceState T) (payload : bool) : SliceState T :=
    {| items := items state; loading := payload; error := error state |}.

Definition setError (state : SliceState T) (payload : option string)
    : SliceState T :=
    {| items := items state; loading := loading state; error := payload |}.
End Generic.
End Slice.

(** The identifiers of a collection, front first. *)
Definition ids {T : Type} `{Keyed T} (l : list T) : list Z := ident <$> l.

(** No two records of the collection share an identifier. *)
Definition unique_ids {T : Type} `{Keyed T} (l : list T) : Prop := NoDup (ids l).

(** Actions of the two slices (the action creators the slices export). *)
Module actions.
Inductive Action :=
  | setRequests (payload : list Request.t)
  | addRequest (payload : Request.t)
  | updateRequest (payload : Request.t)
  | requests_setLoading (payload : bool)
  | requests_setError (payload : option string)
  | setFeedback (payload : list Feedback.t)
  | addFeedback (payload : Feedback.t)
  | updateFeedback (payload : Feedback.t)
  | feedback_setLoading (payload : bool)
  | feedback_setError (payload : option string).
End actions.

Module requestsSlice.
Definition RequestsState := SliceState Request.t.
Definition initialState : RequestsState := Slice.initialState.
Definition setRequests : RequestsState → list Request.t → RequestsState :=
    Slice.setItems.
Definition addRequest : RequestsState → Request.t → RequestsState :=
    Slice.addItem.
Definition updateRequest : RequestsState → Request.t → RequestsState :=
    Slice.updateItem.
Definition setLoading : RequestsState → bool → RequestsState :=
    Slice.setLoading.
Definition setError : RequestsState → option string → RequestsState :=
    Slice.setError.

(** A slice reducer ignores the actions of other slices. *)
Definition reducer (state : RequestsState) (action : actions.Action) : RequestsState :=
    match action with
    | actions.setRequests l => setRequests state l
    | actions.addRequest r => addRequest state r
    | actions.updateRequest r => updateRequest state r
    | actions.requests_setLoading b => setLoading state b
    | actions.requests_setError e => setError state e
    | _ => state
    end.
End requestsSlice.

Module feedbackSlice.
Definition FeedbackState := SliceState Feedback.t.
Definition initialState : FeedbackState := Slice.initialState.
Definition setFeedback : FeedbackState → list Feedback.t → FeedbackState :=
    Slice.setItems.
Definition addFeedback : FeedbackState → Feedback.t → FeedbackState :=
    Slice.addItem.
Definition updateFeedback : FeedbackState → Feedback.t → FeedbackState :=
    Slice.updateItem.
Definition setLoading : FeedbackState → bool → FeedbackState :=
    Slice.setLoading.
Definition setError : FeedbackState → option string → FeedbackState :=
    Slice.setError.

Definition reducer (state : FeedbackState) (action : actions.Action) : FeedbackState :=
    match action with
    | actions.setFeedback l => setFeedback state l
    | actions.addFeedback f => addFeedback state f
    | actions.updateFeedback f => updateFeedback state f
    | actions.feedback_setLoading b => setLoading state b
    | actions.feedback_setError e => setError state e
    | _ => state
    end.
End feedbackSlice.

(** ** The store ([store/store.ts])

    [configureStore] combines the slice reducers.  The [auth] slice is not
    touched by any action of the two collections and is left out. *)
Record RootState := mkRoot {
  requests : requestsSlice.RequestsState;
  feedback : feedbackSlice.FeedbackState;
}.

Definition initialRoot : RootState :=
  {| requests := requestsSlice.initialState;
     feedback := feedbackSlice.initialState |}.

Definition rootReducer (state : RootState) (action : actions.Action) : RootState :=
  {| requests := requestsSlice.reducer (requests state) action;
     feedback := feedbackSlice.reducer (feedback state) action |}.

(** [store.dispatch] applied to a sequence of actions, oldest first. *)
Definition dispatch_all (state : RootState) (actions : list actions.Action) : RootState :=
  foldl rootReducer state actions.

(** ** The [useWebSocket] hook ([hooks/useWebSocket.ts])

    The hook is event driven: the browser calls the socket's [onopen],
    [onmessage], [onerror] and [onclose] handlers, fires the timer set by
    [setTimeout], and React runs the effect's cleanup.  The handlers are
    written in a small state-and-exception monad over the hook's mutable
    cells; the browser's side (socket ready states, pending timers) is kept
    in the same record.  Console output is not modelled. *)

Definition MAX_RETRY_ATTEMPTS : nat := 3.
Definition RETRY_DELAY : Z := 3000.

Definition CONNECTION_ERROR_MESSAGE : string :=
  "Unable to establish real-time connection. Please check your internet connection and refresh the page.".

Definition DEFAULT_WS_URL : string := "ws://localhost:8000".

(** [WebSocket.readyState] *)
Inductive ReadyState := CONNECTING | OPEN | CLOSING | CLOSED.

#[export] Instance ReadyState_eq_dec : EqDecision ReadyState.
Proof. solve_decision. Defined.

(** A socket the hook constructed.  [close_fired] records that the browser
    has delivered the socket's [close] event (it does so once). *)
Record WebSocket := mkWebSocket {
  url : string;
  readyState : ReadyState;
  close_fired : bool;
}.

(** The hook's cells: the four refs, the one piece of React state, the two
    flags local to the effect, the Redux store the handlers dispatch to,
    and the browser's sockets (by index of construction) and pending
    timers [(id, delay)].  Two logs record effects: [attempts] counts the
    evaluations of [new WebSocket(...)] (the connection attempts made), and
    [surfaced] lists the messages handed to [setConnectionError], newest
    first (the notices shown to the user). *)
Record hook := mkHook {
  wsRef : option nat;
  reconnectTimeoutRef : option nat;
  retryCountRef : nat;
  hasShownErrorRef : bool;
  connectionError : option string;
  isConnecting : bool;
  isCleaning : bool;
  store : RootState;
  sockets : list WebSocket;
  attempts : nat;
  timers : list (nat * Z);
  nextTimer : nat;
  surfaced : list string;
}.

(** Assignment to one cell. *)
Definition set_wsRef (v : option nat) (s : hook) : hook :=
  {| wsRef := v; reconnectTimeoutRef := reconnectTimeoutRef s;
     retryCountRef := retryCountRef s;
     hasShownErrorRef := hasShownErrorRef s;
     connectionError := connectionError s; isConnecting := isConnecting s;
     isCleaning := isCleaning s; store := store s; sockets := sockets s;
     attempts := attempts s; timers := timers s; nextTimer := nextTimer s;
     surfaced := surfaced s |}.
Definition set_reconnectTimeoutRef (v : option nat) (s : hook) : hook :=
  {| wsRef := wsRef s; reconnectTimeoutRef := v;
     retryCountRef := retryCountRef s;
     hasShownErrorRef := hasShownErrorRef s;
     connectionError := connectionError s; isConnecting := isConnecting s;
     isCleaning := isCleaning s; store := store s; sockets := sockets s;
     attempts := attempts s; timers := timers s; nextTimer := nextTimer s;
     surfaced := surfaced s |}.
Definition set_retryCountRef (v : nat) (s : hook) : hook :=
  {| wsRef := wsRef s; reconnectTimeoutRef := reconnectTimeoutRef s;
     retryCountRef := v; hasShownErrorRef := hasShownErrorRef s;
     connectionError := connectionError s; isConnecting := isConnecting s;
     isCleaning := isCleaning s; store := store s; sockets := sockets s;
     attempts := attempts s; timers := timers s; nextTimer := nextTimer s;
     surfaced := surfaced s |}.
Definition set_hasShownErrorRef (v : bool) (s : hook) : hook :=
  {| wsRef := wsRef s; reconnectTimeoutRef := reconnectTimeoutRef s;
     retryCountRef := retryCountRef s; hasShownErrorRef := v;
     connectionError := connectionError s; isConnecting := isConnecting s;
     isCleaning := isCleaning s; store := store s; sockets := sockets s;
     attempts := attempts s; timers := timers s; nextTimer := nextTimer s;
     surfaced := surfaced s |}.
Definition set_connectionError (v : option string) (s : hook) : hook :=
  {| wsRef := wsRef s; reconnectTimeoutRef := reconnectTimeoutRef s;
     retryCountRef := retryCountRef s;
     hasShownErrorRef := hasShownErrorRef s; connectionError := v;
     isConnecting := isConnecting s; isCleaning := isCleaning s;
     store := store s; sockets := sockets s; attempts := attempts s;
     timers := timers s; nextTimer := nextTimer s; surfaced := surfaced s |}.
Definition set_isConnecting (v : bool) (s : hook) : hook :=
  {| wsRef := wsRef s; reconnectTimeoutRef := reconnectTimeoutRef s;
     retryCountRef := retryCountRef s;
     hasShownErrorRef := hasShownErrorRef s;
     connectionError := connectionError s; isConnecting := v;
     isCleaning := isCleaning s; store := store s; sockets := sockets s;
     attempts := attempts s; timers := timers s; nextTimer := nextTimer s;
     surfaced := surfaced s |}.
Definition set_isCleaning (v : bool) (s : hook) : hook :=
  {| wsRef := wsRef s; reconnectTimeoutRef := reconnectTimeoutRef s;
     retryCountRef := retryCountRef s;
     hasShownErrorRef := hasShownErrorRef s;
     connectionError := connectionError s; isConnecting := isConnecting s;
     isCleaning := v; store := store s; sockets := sockets s;
     attempts := attempts s; timers := timers s; nextTimer := nextTimer s;
     surfaced := surfaced s |}.
Definition set_store (v : RootState) (s : hook) : hook :=
  {| wsRef := wsRef s; reconnectTimeoutRef := reconnectTimeoutRef s;
     retryCountRef := retryCountRef s;
     hasShownErrorRef := hasShownErrorRef s;
     connectionError := connectionError s; isConnecting := isConnecting s;
     isCleaning := isCleaning s; store := v; sockets := sockets s;
     attempts := attempts s; timers := timers s; nextTimer := nextTimer s;
     surfaced := surfaced s |}.
Definition set_sockets (v : list WebSocket) (s : hook) : hook :=
  {| wsRef := wsRef s; reconnectTimeoutRef := reconnectTimeoutRef s;
     retryCountRef := retryCountRef s;
     hasShownErrorRef := hasShownErrorRef s;
     connectionError := connectionError s; isConnecting := isConnecting s;
     isCleaning := isCleaning s; store := store s; sockets := v;
     attempts := attempts s; timers := timers s; nextTimer := nextTimer s;
     surfaced := surfaced s |}.
Definition set_attempts (v : nat) (s : hook) : hook :=
  {| wsRef := wsRef s; reconnectTimeoutRef := reconnectTimeoutRef s;
     retryCountRef := retryCountRef s;
     hasShownErrorRef := hasShownErrorRef s;
     connectionError := connectionError s; isConnecting := isConnecting s;
     isCleaning := isCleaning s; store := store s; sockets := sockets s;
     attempts := v; timers := timers s; nextTimer := nextTimer s;
     surfaced := surfaced s |}.
Definition set_timers (v : list (nat * Z)) (s : hook) : hook :=
  {| wsRef := wsRef s; reconnectTimeoutRef := reconnectTimeoutRef s;
     retryCountRef := retryCountRef s;
     hasShownErrorRef := hasShownErrorRef s;
     connectionError := connectionError s; isConnecting := isConnecting s;
     isCleaning := isCleaning s; store := store s; sockets := sockets s;
     attempts := attempts s; timers := v; nextTimer := nextTimer s;
     surfaced := surfaced s |}.
Definition set_nextTimer (v : nat) (s : hook) : hook :=
  {| wsRef := wsRef s; reconnectTimeoutRef := reconnectTimeoutRef s;
     retryCountRef := retryCountRef s;
     hasShownErrorRef := hasShownErrorRef s;
     connectionError := connectionError s; isConnecting := isConnecting s;
     isCleaning := isCleaning s; store := store s; sockets := sockets s;
     attempts := attempts s; timers := timers s; nextTimer := v;
     surfaced := surfaced s |}.
Definition set_surfaced (v : list string) (s : hook) : hook :=
  {| wsRef := wsRef s; reconnectTimeoutRef := reconnectTimeoutRef s;
     retryCountRef := retryCountRef s;
     hasShownErrorRef := hasShownErrorRef s;
     connectionError := connectionError s; isConnecting := isConnecting s;
     isCleaning := isCleaning s; store := store s; sockets := sockets s;
     attempts := attempts s; timers := timers s; nextTimer := nextTimer s;
     surfaced := v |}.

(** The component as first rendered: [useRef(null)], [useRef(0)],
    [useRef(false)], [useState(null)]; timer identifiers handed out by
    [window.setTimeout] are positive. *)
Definition initial_hook (st : RootState) : hook :=
  {| wsRef := None; reconnectTimeoutRef := None; retryCountRef := 0%nat;
     hasShownErrorRef := false; connectionError := None;
     isConnecting := false; isCleaning := false; store := st;
     sockets := []; attempts := 0%nat; timers := []; nextTimer := 1%nat;
     surfaced := [] |}.

(** Exceptions a handler can meet. *)
Inductive exn := SyntaxError | TypeError.

(** What [onmessage] can observe of the value [JSON.parse] returns: [null]
    has no properties (reading one throws); any other value has a [type]
    property, which is a string or is not, and a [data] property. *)
Inductive JSValue (any : Type) :=
  | JSnull
  | JSvalue (type : option string) (data : any).
Arguments JSnull {any}.
Arguments JSvalue {any} _ _.

(** The parts of the platform the hook calls into and the build-time
    configuration: [JSON.parse] ([None] when it throws its [SyntaxError]),
    the unchecked [as Request] / [as Feedback] type assertions on
    [message.data], the [VITE_WS_URL] setting, and whether
    [new WebSocket(url)] throws. *)
Class Platform := {
  any : Type;
  JSON_parse : string → option (JSValue any);
  as_Request : any → Request.t;
  as_Feedback : any → Feedback.t;
  VITE_WS_URL : option string;
  WebSocket_throws : string → option exn;
}.

(** Handlers: state passing over [hook], with exceptions. *)
Definition M (A : Type) : Type := hook → (exn + A) * hook.

#[export] Instance M_ret : MRet M := λ A a s, (inr a, s).

#[export] Instance M_bind : MBind M := λ A B f m s,
  match m s with
  | (inr a, s') => f a s'
  | (inl e, s') => (inl e, s')
  end.

Definition throw {A : Type} (e : exn) : M A := λ s, (inl e, s).

(** [try { body } catch (error) { handler }] *)
Definition try_catch {A : Type} (body : M A) (handler : exn → M A) : M A :=
  λ s, match body s with
       | (inl e, s') => handler e s'
       | (inr a, s') => (inr a, s')
       end.

Definition gets {A : Type} (f : hook → A) : M A := λ s, (inr (f s), s).
Definition modify (f : hook → hook) : M unit := λ s, (inr tt, f s).

(** Nothing to do (an early [return], a branch not taken). *)
Definition skip : M unit := mret tt.

(** The state a handler leaves behind (also when it throws). *)
Definition exec {A : Type} (m : M A) (s : hook) : hook := snd (m s).

(** JavaScript truthiness of a [string | null] and of a [number | null]. *)
Definition truthy_string (v : option string) : bool :=
  match v with
  | Some v => negb (String.eqb v "")
  | None => false
  end.

Definition truthy_number (v : option nat) : bool :=
  match v with
  | Some n => negb (n =? 0)%nat
  | None => false
  end.

(** [window.setTimeout(connect, delay)]: a fresh identifier, the timer
    pending.  The callback is always [connect]. *)
Definition setTimeout (delay : Z) : M nat :=
  λ s, let t := nextTimer s in
       (inr t, set_nextTimer (S t) (set_timers ((t, delay) :: timers s) s)).

(** [clearTimeout(t)] *)
Definition clearTimeout (t : nat) : M unit :=
  modify (λ s, set_timers (filter (λ p, p.1 ≠ t) (timers s)) s).

(** [setConnectionError(v)] *)
Definition setConnectionError (v : option string) : M unit :=
  modify (λ s,
    set_connectionError v
      (match v with
       | Some msg => set_surfaced (msg :: surfaced s) s
       | None => s
       end)).

(** [dispatchRef.current(action)] *)
Definition dispatch (action : actions.Action) : M unit :=
  modify (λ s, set_store (rootReducer (store s) action) s).

Definition showConnectionError : M unit :=
  shown ← gets hasShownErrorRef;
  if negb shown then
    modify (set_hasShownErrorRef true);;
    setConnectionError (Some CONNECTION_ERROR_MESSAGE)
  else skip.

Definition ws_onopen : M unit :=
  modify (set_isConnecting false);;
  modify (set_retryCountRef 0%nat);;
  modify (set_hasShownErrorRef false);;
  setConnectionError None.

Definition ws_onerror : M unit :=
  modify (set_isConnecting false);;
  modify (λ s, set_retryCountRef (S (retryCountRef s)) s).

(** [clearError: () => setConnectionError(null)] *)
Definition clearError : M unit := setConnectionError None.

(** [reconnectTimeoutRef.current = window.setTimeout(connect, RETRY_DELAY)] *)
Definition schedule_reconnect : M unit :=
  t ← setTimeout RETRY_DELAY;
  modify (set_reconnectTimeoutRef (Some t)).

Definition ws_onclose : M unit :=
  modify (set_isConnecting false);;
  cleaning ← gets isCleaning;
  if (cleaning : bool) then skip
  else
    modify (λ s, set_retryCountRef (S (retryCountRef s)) s);;
    n ← gets retryCountRef;
    if (n <? MAX_RETRY_ATTEMPTS)%nat then schedule_reconnect
    else showConnectionError.

(** [wsRef.current.close()] on an open socket: the closing handshake
    starts; the [close] event comes later. *)
Definition ws_close (k : nat) : M unit :=
  modify (λ s,
    set_sockets
      (alter (λ w, mkWebSocket (url w) CLOSING (close_fired w)) k (sockets s)) s).

(** The function the effect returns. *)
Definition cleanup : M unit :=
  modify (set_isCleaning true);;
  t ← gets reconnectTimeoutRef;
  (if truthy_number t then clearTimeout (default 0%nat t) else skip);;
  ws ← gets wsRef;
  socks ← gets sockets;
  match ws with
  | Some k =>
      match socks !! k with
      | Some w =>
          if bool_decide (readyState w = OPEN) then ws_close k else skip
      | None => skip
      end
  | None => skip
  end.

Section WithPlatform.
Context `{Platform}.

(** [import.meta.env.VITE_WS_URL || 'ws://localhost:8000'] *)
Definition WS_URL : string :=
  if truthy_string VITE_WS_URL then default DEFAULT_WS_URL VITE_WS_URL
  else DEFAULT_WS_URL.

(** [new WebSocket(url)]: throws, or yields a socket that is connecting. *)
Definition new_WebSocket (u : string) : M nat :=
  modify (λ s, set_attempts (S (attempts s)) s);;
  match WebSocket_throws u with
  | Some e => throw e
  | None =>
      λ s, (inr (length (sockets s)),
            set_sockets (sockets s ++ [mkWebSocket u CONNECTING false]) s)
  end.

Definition connect (token : string) : M unit :=
  connecting ← gets isConnecting;
  if (connecting : bool) then skip
  else
    modify (set_isConnecting true);;
    n ← gets retryCountRef;
    if (MAX_RETRY_ATTEMPTS <=? n)%nat then showConnectionError
    else
      try_catch
        (ws ← new_WebSocket (WS_URL +:+ "/ws?token=" +:+ token);
         modify (set_wsRef (Some ws)))
        (λ _,
           modify (set_isConnecting false);;
           modify (λ s, set_retryCountRef (S (retryCountRef s)) s);;
           n ← gets retryCountRef;
           cleaning ← gets isCleaning;
           if (n <? MAX_RETRY_ATTEMPTS)%nat && negb cleaning then
             schedule_reconnect
           else showConnectionError).

Definition ws_onmessage (data : string) : M unit :=
  try_catch
    (message ← match JSON_parse data with
               | Some v => mret v
               | None => throw SyntaxError
               end;
     match message with
     | JSnull => throw TypeError
     | JSvalue type d =>
         if bool_decide (type = Some "new_request") then
           dispatch (actions.addRequest (as_Request d))
         else if bool_decide (type = Some "request_updated") then
           dispatch (actions.updateRequest (as_Request d))
         else if bool_decide (type = Some "new_feedback") then
           dispatch (actions.addFeedback (as_Feedback d))
         else if bool_decide (type = Some "feedback_updated") then
           dispatch (actions.updateFeedback (as_Feedback d))
         else skip
     end)
    (λ _, skip).

(** The body of the effect keyed on [token]. *)
Definition useEffect_token (token : option string) : M unit :=
  if negb (truthy_string token) then skip
  else connect (default "" token).

(** *** Events

    What can happen to a mounted hook: the browser delivers a socket event
    to socket [k], a pending timer elapses, React runs the cleanup, or the
    consumer dismisses the notice. *)
Inductive event :=
  | EvOpen (k : nat)
  | EvMessage (k : nat) (data : string)
  | EvError (k : nat)
  | EvClose (k : nat)
  | EvTimeout (t : nat)
  | EvCleanup
  | EvClearError.

(** The browser's side of a socket event: it is delivered only in a ready
    state that allows it and moves the socket on. *)
Definition deliver (k : nat) (enabled : WebSocket → bool)
    (after : WebSocket → WebSocket) (s : hook) : option hook :=
  w ← sockets s !! k;
  if enabled w then Some (set_sockets (<[k := after w]> (sockets s)) s)
  else None.

(** One event; [None] when the browser cannot deliver it in this state
    ([open] needs a connecting socket, [message] an open one, [error] one
    that is not yet closed, [close] one whose close event is still due, a
    timeout a pending timer). *)
Definition step (token : string) (ev : event) (s : hook) : option hook :=
  match ev with
  | EvOpen k =>
      exec ws_onopen <$>
        deliver k (λ w, bool_decide (readyState w = CONNECTING))
          (λ w, mkWebSocket (url w) OPEN (close_fired w)) s
  | EvMessage k data =>
      exec (ws_onmessage data) <$>
        deliver k (λ w, bool_decide (readyState w = OPEN)) (λ w, w) s
  | EvError k =>
      exec ws_onerror <$>
        deliver k (λ w, negb (bool_decide (readyState w = CLOSED)))
          (λ w, mkWebSocket (url w) CLOSED (close_fired w)) s
  | EvClose k =>
      exec ws_onclose <$>
        deliver k (λ w, negb (close_fired w))
          (λ w, mkWebSocket (url w) CLOSED true) s
  | EvTimeout t =>
      if bool_decide (t ∈ (timers s).*1) then
        Some (exec (connect token)
                (set_timers (filter (λ p, p.1 ≠ t) (timers s)) s))
      else None
  | EvCleanup => Some (exec cleanup s)
  | EvClearError => Some (exec clearError s)
  end.

Fixpoint run (token : string) (evs : list event) (s : hook) : option hook :=
  match evs with
  | [] => Some s
  | ev :: evs' => s' ← step token ev s; run token evs' s'
  end.

(** The hook mounted with a credential: the effect body has run. *)
Definition mount (token : string) (st : RootState) : hook :=
  exec (useEffect_token (Some token)) (initial_hook st).

End WithPlatform.

(** ** Sample data and a test double of the platform

    Used to run the model on concrete inputs. *)

Definition sample_request (i : Z) (st : RequestStatus) : Request.t :=
  {| Request.id := i; Request.guest_id := 1; Request.room_id := 101;
     Request.category := "housekeeping"; Request.description := "towels";
     Request.status := st; Request.created_at := "2024-01-01T10:00:00";
     Request.updated_at := "2024-01-01T10:00:00";
     Request.guest := None; Request.room := None |}.

Definition sample_feedback (i : Z) (sn : Sentiment) : Feedback.t :=
  {| Feedback.id := i; Feedback.guest_id := 1; Feedback.room_id := 101;
     Feedback.message := "quiet room"; Feedback.sentiment := sn;
     Feedback.smart_response := None;
     Feedback.created_at := "2024-01-01T10:00:00";
     Feedback.guest := None; Feedback.room := None |}.

Definition dquote : string := String (Ascii.ascii_of_nat 34) "".

Definition quoted (s : string) : string := dquote +:+ s +:+ dquote.

(** The text of a frame [{ type: ..., data: { id: 7 } }]. *)
Definition frame_of (type : string) : string :=
  "{" +:+ quoted "type" +:+ ":" +:+ quoted type +:+ ","
      +:+ quoted "data" +:+ ":{" +:+ quoted "id" +:+ ":7}}".

(** The double's [JSON.parse] knows a handful of frames and rejects every
    other text; [message.data] is represented by the identifier it holds,
    and the type assertions build a record around it. *)
Definition test_frames : list (string * JSValue Z) :=
  [ ("null", JSnull);
    (frame_of "new_request", JSvalue (Some "new_request") 7);
    (frame_of "request_updated", JSvalue (Some "request_updated") 7);
    (frame_of "new_feedback", JSvalue (Some "new_feedback") 7);
    (frame_of "feedback_updated", JSvalue (Some "feedback_updated") 7);
    (frame_of "unknown_kind", JSvalue (Some "unknown_kind") 7) ].

Definition test_parse (data : string) : option (JSValue Z) :=
  (λ r, r.2.2) <$> list_find (λ p, p.1 = data) test_frames.

(** The double's socket constructor rejects a URL that has no [ws:] or
    [wss:] scheme, as the browser's does. *)
Definition test_WebSocket_throws (u : string) : option exn :=
  if String.prefix "ws://" u || String.prefix "wss://" u then None
  else Some SyntaxError.

Definition test_platform (env_url : option string) : Platform :=
  {| any := Z;
     JSON_parse := test_parse;
     as_Request := λ i, sample_request i Completed;
     as_Feedback := λ i, sample_feedback i Negative;
     VITE_WS_URL := env_url;
     WebSocket_throws := test_WebSocket_throws |}.

(** ** The list components and the dashboard

    The parts of [components/RequestsList.tsx], [components/FeedbackList.tsx]
    and [pages/Dashboard.tsx] that compute: the filters, the category
    options, the conditions under which the action buttons and the error
    modal are rendered, and the handlers that write to the store.  A
    handler that awaits the REST API takes the outcome of the call as an
    argument ([None] when the promise is rejected). *)

(** [User] of [types/index.ts]. *)
Inductive Role := Staff | Manager.

Module User.
Record t := mk {
  id : Z;
  email : string;
  full_name : string;
  role : Role;
  created_at : string;
}.
End User.

#[export] Instance Role_eq_dec : EqDecision Role.
Proof. solve_decision. Defined.

#[export] Instance RequestStatus_eq_dec : EqDecision RequestStatus.
Proof. solve_decision. Defined.

#[export] Instance Sentiment_eq_dec : EqDecision Sentiment.
Proof. solve_decision. Defined.

(** The string a status or a sentiment is in TypeScript. *)
Definition status_text (st : RequestStatus) : string :=
  match st with
  | Pending => "Pending"
  | InProgress => "In Progress"
  | Completed => "Completed"
  end.

Definition sentiment_text (sn : Sentiment) : string :=
  match sn with
  | Positive => "Positive"
  | Negative => "Negative"
  | Neutral => "Neutral"
  end.

(** The callback of [requests.filter] in [RequestsList]. *)
Definition request_passes (statusFilter categoryFilter : string)
    (request : Request.t) : bool :=
  if negb (String.eqb statusFilter "all")
     && negb (String.eqb (status_text (Request.status request)) statusFilter)
  then false
  else if negb (String.eqb categoryFilter "all")
          && negb (String.eqb (Request.category request) categoryFilter)
  then false
  else true.

Definition filteredRequests (statusFilter categoryFilter : string)
    (requests : list Request.t) : list Request.t :=
  filter (λ request, request_passes statusFilter categoryFilter request = true)
    requests.

(** [Array.from(new Set(xs))]: the distinct elements of [xs], each at the
    place of its first insertion. *)
Definition Set_from (xs : list string) : list string :=
  foldl (λ set x, if bool_decide (x ∈ set) then set else set ++ [x]) [] xs.

Definition categories (requests : list Request.t) : list string :=
  Set_from (Request.category <$> requests).

(** The condition on the "Mark Complete" button:
    [user?.role === 'Manager' && request.status !== 'Completed']. *)
Definition showMarkComplete (user : option User.t) (request : Request.t) : bool :=
  bool_decide (User.role <$> user = Some Manager)
  && negb (bool_decide (Request.status request = Completed)).

(** [handleMarkComplete]: the PATCH's response data is dispatched as an
    update; a rejected call is logged and nothing is dispatched. *)
Definition handleMarkComplete (request : Request.t)
    (response : option Request.t) (st : RootState) : RootState :=
  match response with
  | Some data => rootReducer st (actions.updateRequest data)
  | None => st
  end.

(** The callback of [feedbacks.filter] in [FeedbackList]. *)
Definition feedback_passes (sentimentFilter : string) (feedback : Feedback.t)
  : bool :=
  if negb (String.eqb sentimentFilter "all")
     && negb (String.eqb (sentiment_text (Feedback.sentiment feedback))
                sentimentFilter)
  then false
  else true.

Definition filteredFeedbacks (sentimentFilter : string)
    (feedbacks : list Feedback.t) : list Feedback.t :=
  filter (λ feedback, feedback_passes sentimentFilter feedback = true)
    feedbacks.

(** The condition on the "Generate Smart Response" button:
    [user?.role === 'Manager' && feedback.sentiment === 'Negative' &&
     !feedback.smart_response]. *)
Definition showGenerateResponse (user : option User.t) (feedback : Feedback.t)
  : bool :=
  bool_decide (User.role <$> user = Some Manager)
  && bool_decide (Feedback.sentiment feedback = Negative)
  && negb (truthy_string (Feedback.smart_response feedback)).

(** [{ ...feedback, smart_response: v }] *)
Definition with_smart_response (feedback : Feedback.t) (v : option string)
  : Feedback.t :=
  {| Feedback.id := Feedback.id feedback;
     Feedback.guest_id := Feedback.guest_id feedback;
     Feedback.room_id := Feedback.room_id feedback;
     Feedback.message := Feedback.message feedback;
     Feedback.sentiment := Feedback.sentiment feedback;
     Feedback.smart_response := v;
     Feedback.created_at := Feedback.created_at feedback;
     Feedback.guest := Feedback.guest feedback;
     Feedback.room := Feedback.room feedback |}.

(** [handleGenerateResponse] once the POST has settled: on success the
    rendered record with the response's [smart_response] (which may be
    missing) is dispatched as an update; either way [generatingResponse]
    is reset to [null].  The result is the store and [generatingResponse]. *)
Definition handleGenerateResponse (feedback : Feedback.t)
    (response : option (option string)) (st : RootState)
  : RootState * option Z :=
  (match response with
   | Some smart =>
       rootReducer st
         (actions.updateFeedback (with_smart_response feedback smart))
   | None => st
   end,
   None).

(** [isOpen={!!connectionError}] in [Dashboard]; [ErrorModal] renders
    nothing unless [isOpen]. *)
Definition ErrorModal_isOpen (s : hook) : bool :=
  truthy_string (connectionError s).

(** ** Predicates used to state the properties *)

(** Some record of the collection carries identifier [k]. *)
Definition present {T : Type} `{Keyed T} (k : Z) (l : list T) : Prop :=
  ∃ r, r ∈ l ∧ ident r = k.

(** [l'] is [l] with the record at position [i], whose identifier is that
    of [p], replaced by [p]: same length, every other position as it was. *)
Definition replaced_at {T : Type} `{Keyed T} (i : nat) (p : T) (l l' : list T)
  : Prop :=
  (∃ r, l !! i = Some r ∧ ident r = ident p) ∧
  length l' = length l ∧
  l' !! i = Some p ∧
  ∀ j, j ≠ i → l' !! j = l !! j.

(** The outcome of an "updated" envelope with payload [p] on a collection:
    replaced in place when the identifier is present, nothing otherwise. *)
Definition upsert_outcome {T : Type} `{Keyed T}
    (s : SliceState T) (p : T) (s' : SliceState T) : Prop :=
  (present (ident p) (items s) →
     (∃ i, replaced_at i p (items s) (items s')) ∧
     loading s' = loading s ∧ error s' = error s) ∧
  (¬ present (ident p) (items s) → s' = s).

(** Both collections of the store have unique identifiers. *)
Definition store_unique (st : RootState) : Prop :=
  unique_ids (items (requests st)) ∧ unique_ids (items (feedback st)).

(** The side condition under which an action cannot introduce a duplicate:
    a snapshot has unique identifiers itself, and an inserted record's
    identifier is not in its collection yet. *)
Definition keeps_unique (st : RootState) (a : actions.Action) : Prop :=
  match a with
  | actions.setRequests l => unique_ids l
  | actions.addRequest r => ident r ∉ ids (items (requests st))
  | actions.setFeedback l => unique_ids l
  | actions.addFeedback f => ident f ∉ ids (items (feedback st))
  | _ => True
  end.

(** Every socket has delivered its [close] event: no attempt is in flight
    and no connection is up. *)
Definition settled (s : hook) : Prop :=
  ∀ k w, sockets s !! k = Some w → close_fired w = true.

Definition is_open (ev : event) : bool :=
  match ev with
  | EvOpen _ => true
  | _ => false
  end.

(** What holds of the hook after any sequence of events:
    timer identifiers are positive; at most one timer is pending, it is the
    one [reconnectTimeoutRef] holds, and while it is pending every socket is
    settled and the counter is below the cap; at most one socket has its
    [close] event still due; a socket whose [close] event was delivered is
    [CLOSED]; while a socket is [CONNECTING] the [isConnecting] flag is up;
    and once the counter has reached the cap with every socket settled
    (and no teardown), the ErrorFlag is set. *)
Record hook_inv (s : hook) : Prop := mkInv {
  inv_nextTimer : nextTimer s ≠ 0%nat;
  inv_timers :
    timers s = [] ∨
    ∃ t d, timers s = [(t, d)] ∧ reconnectTimeoutRef s = Some t ∧ t ≠ 0%nat ∧
           settled s ∧ (retryCountRef s < MAX_RETRY_ATTEMPTS)%nat;
  inv_one_live :
    ∀ i j wi wj, sockets s !! i = Some wi → sockets s !! j = Some wj →
      close_fired wi = false → close_fired wj = false → i = j;
  inv_fired_closed :
    ∀ i w, sockets s !! i = Some w → close_fired w = true →
      readyState w = CLOSED;
  inv_connecting :
    ∀ i w, sockets s !! i = Some w → readyState w = CONNECTING →
      isConnecting s = true;
  inv_failed :
    isCleaning s = false → (MAX_RETRY_ATTEMPTS ≤ retryCountRef s)%nat →
    settled s → hasShownErrorRef s = true;
}.

(** The outcome of the retry decision taken at attempt count [n] in state
    [s]: below the cap one timer with the fixed delay is added and nothing
    is surfaced; at or above the cap no timer is added, the ErrorFlag is
    set and the notice is surfaced unless the flag was already set.  No
    socket is constructed either way. *)
Definition retry_decision (n : nat) (s s' : hook) : Prop :=
  retryCountRef s' = n ∧ sockets s' = sockets s ∧
  if (n <? MAX_RETRY_ATTEMPTS)%nat then
    timers s' = (nextTimer s, RETRY_DELAY) :: timers s ∧
    reconnectTimeoutRef s' = Some (nextTimer s) ∧
    surfaced s' = surfaced s ∧
    hasShownErrorRef s' = hasShownErrorRef s
  else
    timers s' = timers s ∧
    hasShownErrorRef s' = true ∧
    surfaced s' = (if hasShownErrorRef s then surfaced s
                   else CONNECTION_ERROR_MESSAGE :: surfaced s).

(** What holds while no socket has opened since the mount: attempts made
    and retries pending stay within what the counter allows, and the
    notices surfaced are exactly what the ErrorFlag says. *)
Definition within_budget (s : hook) : Prop :=
  (attempts s + length (timers s)
     ≤ S (retryCountRef s) `min` MAX_RETRY_ATTEMPTS)%nat ∧
  surfaced s =
    (if hasShownErrorRef s then [CONNECTION_ERROR_MESSAGE] else []).

(** Teardown has run: the flag is up and no timer is pending. *)
Definition torn_down (s : hook) : Prop :=
  isCleaning s = true ∧ timers s = [].

(** ** Counting in traces *)

(** The number of [open] events in a trace. *)
Definition opens (evs : list event) : nat :=
  length (filter (λ ev, is_open ev = true) evs).

(** The number of "new request" actions in a sequence, and whether an
    action is a snapshot. *)
Definition is_addRequest (a : actions.Action) : bool :=
  match a with
  | actions.addRequest _ => true
  | _ => false
  end.

Definition is_addFeedback (a : actions.Action) : bool :=
  match a with
  | actions.addFeedback _ => true
  | _ => false
  end.

Definition is_snapshot (a : actions.Action) : bool :=
  match a with
  | actions.setRequests _ | actions.setFeedback _ => true
  | _ => false
  end.

(** [n] rounds in which the current socket opens, is closed, and the retry
    timer elapses; round [i] concerns socket [i] and timer [i + 1]. *)
Definition open_close_rounds (n : nat) : list event :=
  i ← seq 0 n; [EvOpen i; EvClose i; EvTimeout (S i)].

(** The socket whose [close] event is still due, if any, is the one
    [wsRef] holds. *)
Definition live_ref (s : hook) : Prop :=
  ∀ i w, sockets s !! i = Some w → close_fired w = false → wsRef s = Some i.

(** What holds of the notice after any sequence of events: it is absent
    or it is the one message, and then the ErrorFlag is set; the ErrorFlag
    is set only with the counter at the cap; and once teardown has run no
    timer is pending. *)
Definition notice_inv (s : hook) : Prop :=
  (connectionError s = None ∨
   (connectionError s = Some CONNECTION_ERROR_MESSAGE ∧
    hasShownErrorRef s = true)) ∧
  (hasShownErrorRef s = true →
   (MAX_RETRY_ATTEMPTS ≤ retryCountRef s)%nat) ∧
  (isCleaning s = true → timers s = []).

(** The hook when [n] sockets have come and gone and socket [n] is
    connecting: one attempt per socket, nothing surfaced, no timer
    pending, no teardown. *)
Definition connecting_nth (n : nat) (s : hook) : Prop :=
  attempts s = S n ∧ surfaced s = [] ∧ hasShownErrorRef s = false ∧
  isCleaning s = false ∧ timers s = [] ∧ nextTimer s = S n ∧
  length (sockets s) = S n ∧
  ∃ w, sockets s !! n = Some w ∧ readyState w = CONNECTING ∧
       close_fired w = false.

(** The hook that never connected. *)
Definition idle (s : hook) : Prop :=
  sockets s = [] ∧ timers s = [] ∧ attempts s = 0%nat ∧ surfaced s = [].

(** A socket as [cleanup] leaves it: an open one is closing. *)
Definition after_close_call (w : WebSocket) : WebSocket :=
  if bool_decide (readyState w = OPEN)
  then mkWebSocket (url w) CLOSING (close_fired w)
  else w.

(** A store holding one request, with identifier 7. *)
Definition one_request : RootState :=
  dispatch_all initialRoot [actions.addRequest (sample_request 7 Pending)].

(** * Properties of the store *)

(** ** [findIndex] finds the first match *)

Lemma findIndex_from_list_find {T : Type} (p : T → bool) (l : list T) (i : Z) :
  findIndex_from p l i =
    match list_find (λ x, p x = true) l with
    | Some (n, _) => i + Z.of_nat n
    | None => -1
    end.
Proof.
  revert i. induction l as [|x l IH]; intros i; [done|].
  cbn [findIndex_from list_find]. destruct (p x) eqn:Hx.
  - rewrite decide_True by done. cbn. lia.
  - rewrite decide_False by (by intros ?). rewrite IH.
    destruct (list_find _ l) as [[n y]|]; cbn; [lia | done].
Qed.

Lemma findIndex_first {T : Type} (p : T → bool) (l : list T) (n : nat) (x : T) :
  l !! n = Some x → p x = true →
  (∀ j y, (j < n)%nat → l !! j = Some y → p y = false) →
  findIndex p l = Z.of_nat n.
Proof.
  intros Hn Hx Hlow. unfold findIndex. rewrite findIndex_from_list_find.
  assert (list_find (λ x, p x = true) l = Some (n, x)) as ->; [|lia].
  apply list_find_Some. split_and!; [done..|].
  intros j y Hj Hlt. rewrite (Hlow j y Hlt Hj). done.
Qed.

Lemma findIndex_none {T : Type} (p : T → bool) (l : list T) :
  (∀ x, x ∈ l → p x = false) → findIndex p l = -1.
Proof.
  intros Hall. unfold findIndex. rewrite findIndex_from_list_find.
  assert (list_find (λ x, p x = true) l = None) as ->; [|done].
  apply list_find_None, Forall_forall. intros x Hx. by rewrite (Hall x Hx).
Qed.

(** Either some index is the first match, or nothing matches. *)
Lemma first_match_or_none {T : Type} (p : T → bool) (l : list T) :
  (∃ n x, l !! n = Some x ∧ p x = true ∧
          ∀ j y, (j < n)%nat → l !! j = Some y → p y = false)
  ∨ (∀ x, x ∈ l → p x = false).
Proof.
  destruct (list_find (λ x, p x = true) l) as [[n x]|] eqn:Hfind.
  - left. apply list_find_Some in Hfind as (Hn & Hx & Hlow).
    exists n, x. split_and!; [done..|].
    intros j y Hlt Hj. specialize (Hlow j y Hj Hlt). by destruct (p y).
  - right. apply list_find_None in Hfind. rewrite Forall_forall in Hfind.
    intros x Hx. specialize (Hfind x Hx). by destruct (p x).
Qed.

Section SliceFacts.
Context {T : Type} `{Keyed T}.

Lemma updateItem_first (s : SliceState T) (p : T) (n : nat) (x : T) :
  items s !! n = Some x → ident x = ident p →
  (∀ j y, (j < n)%nat → items s !! j = Some y → ident y ≠ ident p) →
  Slice.updateItem s p =
    {| items := <[n := p]> (items s); loading := loading s; error := error s |}.
Proof.
  intros Hn Hx Hlow. unfold Slice.updateItem.
  rewrite (findIndex_first _ _ n x Hn).
  - destruct (Z.eqb_spec (Z.of_nat n) (-1)) as [?|_]; [lia|].
    cbn. by rewrite Nat2Z.id.
  - by apply Z.eqb_eq.
  - intros j y Hlt Hj. apply Z.eqb_neq. eauto.
Qed.

Lemma updateItem_absent (s : SliceState T) (p : T) :
  (∀ x, x ∈ items s → ident x ≠ ident p) → Slice.updateItem s p = s.
Proof.
  intros Habs. unfold Slice.updateItem. rewrite findIndex_none; [done|].
  intros x Hx. apply Z.eqb_neq. eauto.
Qed.

Lemma ids_insert_same (l : list T) (n : nat) (x p : T) :
  l !! n = Some x → ident x = ident p → ids (<[n := p]> l) = ids l.
Proof.
  intros Hn Hx. unfold ids. rewrite list_fmap_insert.
  apply list_insert_id. by rewrite list_lookup_fmap, Hn, <- Hx.
Qed.

Lemma updateItem_ids (s : SliceState T) (p : T) :
  ids (items (Slice.updateItem s p)) = ids (items s).
Proof.
  destruct (first_match_or_none (λ r, ident r =? ident p) (items s))
    as [(n & x & Hn & Hx & Hlow)|Habs].
  - rewrite (updateItem_first s p n x); cbn.
    + apply (ids_insert_same _ _ x); [done|]. by apply Z.eqb_eq.
    + done.
    + by apply Z.eqb_eq.
    + intros j y Hlt Hj. apply Z.eqb_neq. eauto.
  - rewrite updateItem_absent; [done|]. intros x Hx. apply Z.eqb_neq. eauto.
Qed.

End SliceFacts.

Section SliceOutcome.
Context {T : Type} `{Keyed T}.

Lemma updateItem_outcome (s : SliceState T) (p : T) :
  upsert_outcome s p (Slice.updateItem s p).
Proof.
  destruct (first_match_or_none (λ r, ident r =? ident p) (items s))
    as [(n & x & Hn & Hx & Hlow)|Habs].
  - apply Z.eqb_eq in Hx.
    assert (∀ j y, (j < n)%nat → items s !! j = Some y → ident y ≠ ident p)
      as Hlow' by (intros j y Hlt Hj; apply Z.eqb_neq; eauto).
    rewrite (updateItem_first s p n x Hn Hx Hlow'). split.
    + intros _. cbn. split; [|done]. exists n. split_and!.
      * eauto.
      * apply length_insert.
      * apply list_lookup_insert_eq. by eapply lookup_lt_Some.
      * intros j Hj. by apply list_lookup_insert_ne.
    + intros Hno. destruct Hno. exists x. split; [|done].
      by eapply list_elem_of_lookup_2.
  - assert (∀ x, x ∈ items s → ident x ≠ ident p) as Habs'
      by (intros x Hx; apply Z.eqb_neq; eauto).
    rewrite (updateItem_absent s p Habs'). split; [|done].
    intros (r & Hr & Hid). by destruct (Habs' r Hr).
Qed.

End SliceOutcome.

(** ** The claims on the store *)

(** C4, as amended.  From a store in which both collections have unique
    identifiers, a store operation leaves them unique if and only if it
    is an "updated" upsert (or a loading or error setter), the insert of a
    "new" record whose identifier is not yet in its collection, or a
    snapshot set whose records have pairwise distinct identifiers.  So
    every update preserves uniqueness, and it is lost exactly by an insert
    of an identifier already present or by a snapshot with repeated
    identifiers. *)
Theorem uniqueness_kept_iff_fresh (st : RootState) (a : actions.Action) :
  store_unique st → store_unique (rootReducer st a) ↔ keeps_unique st a.
Proof.
  intros [Hr Hf]. unfold store_unique, unique_ids in *.
  destruct a; cbn.
  - tauto.
  - rewrite NoDup_cons. tauto.
  - unfold requestsSlice.updateRequest. rewrite updateItem_ids. tauto.
  - tauto.
  - tauto.
  - tauto.
  - rewrite NoDup_cons. tauto.
  - unfold feedbackSlice.updateFeedback. rewrite updateItem_ids. tauto.
  - tauto.
  - tauto.
Qed.

Lemma uniqueness_kept_witness :
  store_unique one_request ∧
  store_unique
    (rootReducer one_request (actions.addRequest (sample_request 8 Pending))) ∧
  ¬ store_unique
      (rootReducer one_request
         (actions.addRequest (sample_request 7 Completed))) ∧
  ¬ store_unique
      (rootReducer one_request
         (actions.setFeedback [sample_feedback 3 Positive;
                               sample_feedback 3 Negative])).
Proof.
  assert (Hst : store_unique one_request)
    by (split; cbn; [apply NoDup_singleton | apply NoDup_nil_2]).
  split; [exact Hst|]. split; [|split].
  - apply (uniqueness_kept_iff_fresh one_request _ Hst). cbn.
    apply not_elem_of_cons. split; [done | apply not_elem_of_nil].
  - intros Hu. apply (uniqueness_kept_iff_fresh one_request _ Hst) in Hu.
    cbn in Hu. apply Hu, list_elem_of_here.
  - intros Hu. apply (uniqueness_kept_iff_fresh one_request _ Hst) in Hu.
    cbn in Hu. apply NoDup_cons in Hu as [Hin _]. apply Hin, list_elem_of_here.
Defined.

(** C4, as stated, fails: two "new" envelopes carrying the same identifier
    leave two records with that identifier in the collection. *)
Lemma insert_twice_breaks_uniqueness :
  ¬ store_unique
      (dispatch_all initialRoot
         [actions.addRequest (sample_request 7 Pending);
          actions.addRequest (sample_request 7 Completed)]).
Proof.
  intros [Hr _]. cbn in Hr. apply NoDup_cons in Hr as [Hin _].
  apply Hin. apply list_elem_of_here.
Qed.

(** C5.  An "updated" envelope whose identifier is present replaces that
    record at its position, the length and every other position unchanged;
    one whose identifier is absent leaves the store unchanged.  The other
    collection is never touched. *)
Theorem updated_replaces_in_place_or_is_dropped (st : RootState) :
  (∀ p : Request.t,
     upsert_outcome (requests st) p
       (requests (rootReducer st (actions.updateRequest p))) ∧
     feedback (rootReducer st (actions.updateRequest p)) = feedback st) ∧
  (∀ p : Feedback.t,
     upsert_outcome (feedback st) p
       (feedback (rootReducer st (actions.updateFeedback p))) ∧
     requests (rootReducer st (actions.updateFeedback p)) = requests st).
Proof.
  split; intros p; (split; [apply updateItem_outcome | done]).
Qed.

(** C6.  A "new" envelope always puts its payload at the front of its
    collection, which grows by one, whatever identifiers are already
    there. *)
Theorem new_always_inserts_at_front (st : RootState) :
  (∀ p : Request.t,
     let st' := rootReducer st (actions.addRequest p) in
     items (requests st') = p :: items (requests st) ∧
     length (items (requests st')) = S (length (items (requests st))) ∧
     feedback st' = feedback st) ∧
  (∀ p : Feedback.t,
     let st' := rootReducer st (actions.addFeedback p) in
     items (feedback st') = p :: items (feedback st) ∧
     length (items (feedback st')) = S (length (items (feedback st))) ∧
     requests st' = requests st).
Proof. split; intros p; done. Qed.

(** C10.  When several records share the payload's identifier, an
    "updated" envelope replaces the front-most of them (position [i]) and
    leaves every other position, so every later duplicate, as it was. *)
Theorem updated_replaces_first_duplicate_only {T : Type} `{Keyed T}
    (s : SliceState T) (p a b : T) (i j : nat) :
  items s !! i = Some a → ident a = ident p →
  (∀ k c, (k < i)%nat → items s !! k = Some c → ident c ≠ ident p) →
  items s !! j = Some b → ident b = ident p → (i < j)%nat →
  items (Slice.updateItem s p) !! i = Some p ∧
  items (Slice.updateItem s p) !! j = Some b ∧
  ∀ k, k ≠ i → items (Slice.updateItem s p) !! k = items s !! k.
Proof.
  intros Hi Ha Hlow Hj Hb Hlt.
  rewrite (updateItem_first s p i a Hi Ha Hlow). cbn. split_and!.
  - apply list_lookup_insert_eq. by eapply lookup_lt_Some.
  - rewrite list_lookup_insert_ne by lia. done.
  - intros k Hk. by apply list_lookup_insert_ne.
Qed.

Lemma updated_first_duplicate_witness :
  let s := {| items := [sample_request 5 Pending; sample_request 7 Pending;
                        sample_request 7 InProgress];
              loading := false; error := None |} in
  let p := sample_request 7 Completed in
  items (requestsSlice.updateRequest s p) !! 1%nat = Some p ∧
  items (requestsSlice.updateRequest s p) !! 2%nat
    = Some (sample_request 7 InProgress) ∧
  ∀ k, k ≠ 1%nat →
    items (requestsSlice.updateRequest s p) !! k = items s !! k.
Proof.
  intros s p.
  apply (updated_replaces_first_duplicate_only s p
           (sample_request 7 Pending) (sample_request 7 InProgress) 1 2).
  - reflexivity.
  - reflexivity.
  - intros k c Hk Hc. destruct k as [|k]; [|lia].
    cbn in Hc. injection Hc as <-. cbn. lia.
  - reflexivity.
  - reflexivity.
  - lia.
Defined.

(** * Properties of the hook *)

(** Unfolds a handler down to the record it builds. *)
Ltac run_handler :=
  unfold exec, ws_onopen, ws_onerror, ws_onclose, ws_onmessage, connect,
    cleanup, clearError, useEffect_token, showConnectionError,
    schedule_reconnect, setConnectionError, new_WebSocket, ws_close,
    setTimeout, clearTimeout, dispatch, try_catch, throw, gets, modify, skip;
  unfold mbind, M_bind, mret, M_ret;
  cbn -[Nat.ltb Nat.leb MAX_RETRY_ATTEMPTS].

(** ** The claims on single handlers *)

(** Dismissing clears the surfaced notice and nothing else: the ErrorFlag,
    the RetryCounter, the socket handle, the sockets and the pending
    timers are as before, and no exception is raised. *)
Lemma clearError_clears_notice_only (s : hook) :
  clearError s = (inr tt, set_connectionError None s) ∧
  connectionError (exec clearError s) = None ∧
  hasShownErrorRef (exec clearError s) = hasShownErrorRef s ∧
  retryCountRef (exec clearError s) = retryCountRef s ∧
  wsRef (exec clearError s) = wsRef s ∧
  sockets (exec clearError s) = sockets s ∧
  timers (exec clearError s) = timers s.
Proof. by run_handler. Qed.

(** C7, as stated, fails: after the retry budget is exhausted (three
    attempts, each closed by the server) the ErrorFlag is set, and it is
    still set after the notice is dismissed. *)
Lemma dismiss_leaves_error_flag_set :
  let P := test_platform None in
  let failed :=
    run "tok" [EvClose 0; EvTimeout 1; EvClose 1; EvTimeout 2; EvClose 2]%nat
      (mount "tok" initialRoot) in
  hasShownErrorRef <$> failed = Some true ∧
  hasShownErrorRef <$> (failed ≫= step "tok" EvClearError) = Some true ∧
  connectionError <$> (failed ≫= step "tok" EvClearError) = Some None.
Proof. vm_compute. done. Qed.

Section HandlerFacts.
Context `{Platform}.

(** C8.  A frame that [JSON.parse] rejects is discarded: the handler
    returns normally (the exception does not escape) and leaves every cell
    as it was, so the store, the notice, the sockets, the RetryCounter and
    the ErrorFlag are untouched; the event leaves the open socket open. *)
Theorem malformed_frame_is_discarded (token data : string) (k : nat)
    (w : WebSocket) (s : hook) :
  JSON_parse data = None →
  sockets s !! k = Some w → readyState w = OPEN →
  ws_onmessage data s = (inr tt, s) ∧
  step token (EvMessage k data) s = Some s.
Proof.
  intros Hparse Hk Hw.
  assert (ws_onmessage data s = (inr tt, s)) as Hm.
  { run_handler. by rewrite Hparse. }
  split; [done|].
  unfold step, deliver. rewrite Hk. cbn. rewrite Hw. cbn.
  rewrite list_insert_id by done.
  replace (set_sockets (sockets s) s) with s by (by destruct s).
  rewrite bool_decide_eq_true_2 by done. cbn. unfold exec. by rewrite Hm.
Qed.

End HandlerFacts.

Lemma malformed_frame_witness :
  let P := test_platform None in
  let s := mkHook (Some 0%nat) None 0 false None false false initialRoot
             [mkWebSocket "ws://localhost:8000/ws?token=tok" OPEN false]
             1 [] 1 [] in
  ws_onmessage "not json" s = (inr tt, s) ∧
  step "tok" (EvMessage 0 "not json") s = Some s.
Proof.
  intros P s.
  apply (malformed_frame_is_discarded "tok" "not json" 0
           (mkWebSocket "ws://localhost:8000/ws?token=tok" OPEN false) s);
    reflexivity.
Defined.

(** C2: what the code does on the claim's scenario.  Each failed attempt
    is an [error] event followed by a [close] event, and both handlers
    increment the counter: it reads 2 after the first failed attempt and 4
    after the second, where the notice is surfaced and no timer is left,
    so the third attempt is never made. *)
Theorem error_then_close_counts_twice :
  let P := test_platform None in
  let m := mount "tok" initialRoot in
  let view s := (retryCountRef s, attempts s, timers s, surfaced s) in
  view <$> run "tok" [EvError 0; EvClose 0]%nat m
    = Some (2, 1, [(1, RETRY_DELAY)], [])%nat ∧
  view <$> run "tok" [EvError 0; EvClose 0; EvTimeout 1;
                      EvError 1; EvClose 1]%nat m
    = Some (4, 2, [], [CONNECTION_ERROR_MESSAGE])%nat ∧
  run "tok" [EvError 0; EvClose 0; EvTimeout 1;
             EvError 1; EvClose 1; EvTimeout 2]%nat m = None ∧
  run "tok" [EvError 0; EvClose 0; EvTimeout 1;
             EvError 1; EvClose 1; EvOpen 2]%nat m = None.
Proof. vm_compute. done. Qed.

(** ** The handlers as state transformers *)

(** The state [showConnectionError] leaves. *)
Lemma showConnectionError_eq (s : hook) :
  showConnectionError s =
    (inr tt,
     if hasShownErrorRef s then s
     else set_connectionError (Some CONNECTION_ERROR_MESSAGE)
            (set_surfaced (CONNECTION_ERROR_MESSAGE :: surfaced s)
               (set_hasShownErrorRef true s))).
Proof. run_handler. by destruct (hasShownErrorRef s). Qed.

Lemma schedule_reconnect_eq (s : hook) :
  schedule_reconnect s =
    (inr tt,
     set_reconnectTimeoutRef (Some (nextTimer s))
       (set_nextTimer (S (nextTimer s))
          (set_timers ((nextTimer s, RETRY_DELAY) :: timers s) s))).
Proof. by run_handler. Qed.

Lemma ws_onopen_eq (s : hook) :
  ws_onopen s =
    (inr tt,
     set_connectionError None
       (set_hasShownErrorRef false
          (set_retryCountRef 0 (set_isConnecting false s)))).
Proof. by run_handler. Qed.

Lemma ws_onerror_eq (s : hook) :
  ws_onerror s =
    (inr tt,
     set_retryCountRef (S (retryCountRef s)) (set_isConnecting false s)).
Proof. by run_handler. Qed.

Lemma ws_onclose_eq (s : hook) :
  ws_onclose s =
    (inr tt,
     if isCleaning s then set_isConnecting false s
     else
       let s1 := set_retryCountRef (S (retryCountRef s))
                   (set_isConnecting false s) in
       if (S (retryCountRef s) <? MAX_RETRY_ATTEMPTS)%nat
       then exec schedule_reconnect s1
       else exec showConnectionError s1).
Proof.
  unfold exec. unfold ws_onclose, gets, modify, skip.
  unfold mbind, M_bind, mret, M_ret. destruct s. cbn -[Nat.ltb].
  destruct isCleaning0; [done|].
  destruct (_ <? _)%nat; rewrite ?showConnectionError_eq; reflexivity.
Qed.

Lemma clearError_eq (s : hook) :
  clearError s = (inr tt, set_connectionError None s).
Proof. by run_handler. Qed.

Lemma cleanup_eq (s : hook) :
  cleanup s =
    (inr tt,
     let s1 := set_isCleaning true s in
     let s2 := if truthy_number (reconnectTimeoutRef s)
               then exec (clearTimeout (default 0%nat (reconnectTimeoutRef s))) s1
               else s1 in
     match wsRef s with
     | Some k =>
         match sockets s !! k with
         | Some w =>
             if bool_decide (readyState w = OPEN) then exec (ws_close k) s2
             else s2
         | None => s2
         end
     | None => s2
     end).
Proof.
  unfold cleanup, exec, gets, modify, skip, clearTimeout, ws_close.
  unfold mbind, M_bind, mret, M_ret. destruct s. cbn.
  destruct (truthy_number reconnectTimeoutRef0); cbn;
    (destruct wsRef0 as [k|]; [|done]);
    (destruct (sockets0 !! k) as [w|]; [|done]);
    by destruct (bool_decide (readyState w = OPEN)).
Qed.

Section HandlerEquations.
Context `{Platform}.

(** [onmessage] touches the store only, and never throws. *)
Lemma ws_onmessage_store (data : string) (s : hook) :
  ∃ st, ws_onmessage data s = (inr tt, set_store st s).
Proof.
  assert (s = set_store (store s) s) as Hs by (by destruct s).
  run_handler. destruct (JSON_parse data) as [[|type d]|]; cbn;
    [by exists (store s); rewrite <- Hs| |by exists (store s); rewrite <- Hs].
  repeat case_bool_decide; cbn; try (by eexists).
  by exists (store s); rewrite <- Hs.
Qed.

Lemma connect_eq (token : string) (s : hook) :
  connect token s =
    (inr tt,
     if isConnecting s then s
     else
       let s1 := set_isConnecting true s in
       if (MAX_RETRY_ATTEMPTS <=? retryCountRef s)%nat
       then exec showConnectionError s1
       else
         let s2 := set_attempts (S (attempts s)) s1 in
         match WebSocket_throws (WS_URL +:+ "/ws?token=" +:+ token) with
         | None =>
             set_wsRef (Some (length (sockets s)))
               (set_sockets
                  (sockets s ++
                     [mkWebSocket (WS_URL +:+ "/ws?token=" +:+ token)
                        CONNECTING false]) s2)
         | Some _ =>
             let s3 := set_retryCountRef (S (retryCountRef s))
                         (set_isConnecting false s2) in
             if (S (retryCountRef s) <? MAX_RETRY_ATTEMPTS)%nat
                && negb (isCleaning s)
             then exec schedule_reconnect s3
             else exec showConnectionError s3
         end).
Proof.
  unfold exec. unfold connect, new_WebSocket, try_catch, throw, gets, modify,
    skip.
  unfold mbind, M_bind, mret, M_ret. destruct s. cbn -[Nat.ltb Nat.leb].
  destruct isConnecting0; [done|].
  destruct (_ <=? _)%nat; [rewrite ?showConnectionError_eq; reflexivity|].
  destruct (WebSocket_throws _); [|done]. cbn -[Nat.ltb].
  destruct (_ && _); rewrite ?showConnectionError_eq; reflexivity.
Qed.

Lemma mount_eq (token : string) (st : RootState) :
  mount token st =
    if String.eqb token "" then initial_hook st
    else exec (connect token) (initial_hook st).
Proof.
  unfold mount, useEffect_token, exec, skip. cbn.
  by destruct (String.eqb token "").
Qed.

End HandlerEquations.

(** Replaces the run of a handler by the state it leaves. *)
Ltac exec_eq :=
  unfold exec;
  rewrite ?ws_onopen_eq, ?ws_onerror_eq, ?ws_onclose_eq, ?clearError_eq,
    ?cleanup_eq, ?connect_eq, ?showConnectionError_eq,
    ?schedule_reconnect_eq;
  cbn [snd];
  unfold exec;
  rewrite ?showConnectionError_eq, ?schedule_reconnect_eq;
  cbn [snd].

(** ** The invariant of the hook *)

Lemma lookup_insert_cases {A : Type} (l : list A) (k i : nat) (x y : A) :
  <[k := x]> l !! i = Some y →
  (i = k ∧ y = x) ∨ (i ≠ k ∧ l !! i = Some y).
Proof.
  intros Hl. apply list_lookup_insert_Some in Hl as [(-> & -> & _)|[? ?]];
    [by left | by right].
Qed.

Lemma alter_as_insert {A : Type} (f : A → A) (l : list A) (k : nat) (x : A) :
  l !! k = Some x → alter f k l = <[k := f x]> l.
Proof.
  intros Hk. apply list_eq. intros i. rewrite list_lookup_alter.
  case_decide as Hik.
  - subst i. rewrite Hk. cbn. symmetry. apply list_lookup_insert_eq.
    by eapply lookup_lt_Some.
  - by rewrite list_lookup_insert_ne.
Qed.

Lemma deliver_Some (k : nat) (enabled : WebSocket → bool)
    (after : WebSocket → WebSocket) (s s1 : hook) :
  deliver k enabled after s = Some s1 →
  ∃ w, sockets s !! k = Some w ∧ enabled w = true ∧
       s1 = set_sockets (<[k := after w]> (sockets s)) s.
Proof.
  unfold deliver. destruct (sockets s !! k) as [w|]; [|done]. cbn.
  destruct (enabled w) eqn:Hen; [|done]. intros [= <-]. eauto.
Qed.

(** Splits the lookups in a list updated at one position. *)
Ltac split_lookups :=
  repeat match goal with
  | H : <[_ := _]> _ !! _ = Some _ |- _ =>
      let Hne := fresh "Hne" in
      apply lookup_insert_cases in H as [[-> ->]|[Hne H]]
  | H : (_ ++ [_]) !! _ = Some _ |- _ =>
      let Hlt := fresh "Hlt" in
      apply lookup_snoc_Some in H as [[Hlt H]|[-> <-]]
  end.

(** A socket whose [close] event is still due is not [CLOSED]-and-fired;
    read the other way, a socket that is not [CLOSED] is live. *)
Lemma live_of_not_closed (s : hook) (k : nat) (w : WebSocket) :
  hook_inv s → sockets s !! k = Some w → readyState w ≠ CLOSED →
  close_fired w = false.
Proof.
  intros Hinv Hk Hw. destruct (close_fired w) eqn:E; [|done].
  destruct Hw. by eapply inv_fired_closed.
Qed.

Lemma no_timer_while_live (s : hook) (k : nat) (w : WebSocket) :
  hook_inv s → sockets s !! k = Some w → close_fired w = false →
  timers s = [].
Proof.
  intros Hinv Hk Hw.
  destruct (inv_timers s Hinv) as [?|(t & d & _ & _ & _ & Hs & _)]; [done|].
  specialize (Hs k w Hk). congruence.
Qed.

Lemma inv_open (s s1 : hook) (k : nat) :
  hook_inv s →
  deliver k (λ w, bool_decide (readyState w = CONNECTING))
    (λ w, mkWebSocket (url w) OPEN (close_fired w)) s = Some s1 →
  hook_inv (exec ws_onopen s1).
Proof.
  intros Hinv (w & Hk & Hen & ->)%deliver_Some.
  apply bool_decide_eq_true in Hen.
  assert (close_fired w = false) as Hw
    by (eapply live_of_not_closed; [done..|congruence]).
  pose proof (no_timer_while_live s k w Hinv Hk Hw) as Htm.
  destruct Hinv as [Hn Ht Hu Hf Hc Hl].
  exec_eq. destruct s; cbn in *. split; cbn.
  - done.
  - by left.
  - intros i j wi wj Hi Hj Hfi Hfj. split_lookups; cbn in *; eauto.
  - intros i wi Hi Hfi. split_lookups; cbn in *; [congruence | eauto].
  - intros i wi Hi Hci. split_lookups; cbn in *; [done|].
    assert (close_fired wi = false) as Hwi.
    { destruct (close_fired wi) eqn:E; [|done].
      specialize (Hf i wi Hi E). congruence. }
    destruct Hne. eauto.
  - unfold MAX_RETRY_ATTEMPTS. lia.
Qed.

Lemma inv_error (s s1 : hook) (k : nat) :
  hook_inv s →
  deliver k (λ w, negb (bool_decide (readyState w = CLOSED)))
    (λ w, mkWebSocket (url w) CLOSED (close_fired w)) s = Some s1 →
  hook_inv (exec ws_onerror s1).
Proof.
  intros Hinv (w & Hk & Hen & ->)%deliver_Some.
  apply negb_true_iff, bool_decide_eq_false in Hen.
  assert (close_fired w = false) as Hw by (by eapply live_of_not_closed).
  pose proof (no_timer_while_live s k w Hinv Hk Hw) as Htm.
  destruct Hinv as [Hn Ht Hu Hf Hc Hl].
  exec_eq. destruct s; cbn in *. split; cbn.
  - done.
  - by left.
  - intros i j wi wj Hi Hj Hfi Hfj. split_lookups; cbn in *; eauto.
  - intros i wi Hi Hfi. split_lookups; cbn in *; eauto.
  - intros i wi Hi Hci. split_lookups; cbn in *; [done|].
    assert (close_fired wi = false) as Hwi.
    { destruct (close_fired wi) eqn:E; [|done].
      specialize (Hf i wi Hi E). congruence. }
    destruct Hne. eauto.
  - intros _ _ Hs. specialize (Hs k _ (list_lookup_insert_eq _ _ _
      (lookup_lt_Some _ _ _ Hk))). cbn in Hs. congruence.
Qed.

Lemma inv_close (s s1 : hook) (k : nat) :
  hook_inv s →
  deliver k (λ w, negb (close_fired w))
    (λ w, mkWebSocket (url w) CLOSED true) s = Some s1 →
  hook_inv (exec ws_onclose s1).
Proof.
  intros Hinv (w & Hk & Hen & ->)%deliver_Some.
  apply negb_true_iff in Hen.
  pose proof (no_timer_while_live s k w Hinv Hk Hen) as Htm.
  destruct Hinv as [Hn Ht Hu Hf Hc Hl].
  assert (∀ i wi, <[k := mkWebSocket (url w) CLOSED true]> (sockets s) !! i
                    = Some wi → close_fired wi = true) as Hset.
  { intros i wi Hi. split_lookups; [done|].
    destruct (close_fired wi) eqn:E; [done|]. destruct Hne. eauto. }
  assert (∀ i wi, <[k := mkWebSocket (url w) CLOSED true]> (sockets s) !! i
                    = Some wi → readyState wi = CLOSED) as Hcl.
  { intros i wi Hi. pose proof (Hset i wi Hi). split_lookups; eauto. }
  exec_eq. destruct s; cbn -[Nat.ltb] in *; subst.
  destruct isCleaning0; cbn -[Nat.ltb].
  { split; cbn; try done; [by left|..].
    - intros i j wi wj Hi Hj Hfi. specialize (Hset i wi Hi). congruence.
    - intros i wi Hi _. eauto.
    - intros i wi Hi Hci. specialize (Hcl i wi Hi). congruence. }
  destruct (Nat.ltb_spec (S retryCountRef0) MAX_RETRY_ATTEMPTS) as [Hlt|Hge];
    cbn.
  { split; cbn; try done.
    - right. eexists _, _. by split_and!.
    - intros i j wi wj Hi Hj Hfi. specialize (Hset i wi Hi). congruence.
    - intros i wi Hi _. eauto.
    - intros i wi Hi Hci. specialize (Hcl i wi Hi). congruence.
    - lia. }
  destruct hasShownErrorRef0; cbn; (split; cbn; try done; [by left|..]).
  all: try (intros i j wi wj Hi Hj Hfi; specialize (Hset i wi Hi);
            congruence).
  all: try (intros i wi Hi Hci; specialize (Hcl i wi Hi); congruence).
  all: intros i wi Hi _; eauto.
Qed.

Lemma inv_clearError (s : hook) : hook_inv s → hook_inv (exec clearError s).
Proof.
  intros [Hn Ht Hu Hf Hc Hl]. exec_eq. destruct s; cbn in *. by split.
Qed.

Lemma inv_set_store (s : hook) (st : RootState) :
  hook_inv s → hook_inv (set_store st s).
Proof. intros [Hn Ht Hu Hf Hc Hl]. destruct s; cbn in *. by split. Qed.

Lemma inv_cleanup (s : hook) : hook_inv s → hook_inv (exec cleanup s).
Proof.
  intros Hinv.
  assert (timers (if truthy_number (reconnectTimeoutRef s)
                  then exec (clearTimeout (default 0%nat (reconnectTimeoutRef s)))
                         (set_isCleaning true s)
                  else set_isCleaning true s) = []) as Htm.
  { destruct (inv_timers s Hinv) as [Ht|(t & d & Ht & Hr & Hz & _)].
    - destruct s; cbn in *; subst. by destruct (truthy_number _).
    - destruct s; cbn in *; subst. destruct t; [done|]. cbn.
      by rewrite decide_False by (by intros ?). }
  destruct Hinv as [Hn Ht Hu Hf Hc Hl].
  exec_eq. unfold clearTimeout, ws_close, modify in *.
  destruct s; cbn in *.
  set (tm := if truthy_number reconnectTimeoutRef0 then _ else _) in *.
  assert (hook_inv tm) as Hbase.
  { subst tm. destruct (truthy_number reconnectTimeoutRef0); cbn in *;
      split; cbn; try done; by left. }
  assert (sockets tm = sockets0 ∧ isConnecting tm = isConnecting0 ∧
          isCleaning tm = true ∧ nextTimer tm = nextTimer0) as (Hs & Hic & Hcl & Hnt).
  { subst tm. by destruct (truthy_number reconnectTimeoutRef0). }
  destruct wsRef0 as [k|]; [|done].
  destruct (sockets0 !! k) as [w|] eqn:Hk; [|done].
  case_bool_decide as Hopen; [|done].
  clearbody tm. destruct tm; cbn in *; subst.
  rewrite (alter_as_insert _ _ _ _ Hk). split; cbn.
  - done.
  - by left.
  - intros i j wi wj Hi Hj Hfi Hfj. split_lookups; cbn in *; eauto.
  - intros i wi Hi Hfi. split_lookups; cbn in *; [|eauto].
    specialize (Hf _ _ Hk Hfi). congruence.
  - intros i wi Hi Hci. split_lookups; cbn in *; [done|eauto].
  - done.
Qed.

Section Invariant.
Context `{Platform}.

Lemma inv_connect (token : string) (s : hook) :
  hook_inv s → timers s = [] → settled s →
  hook_inv (exec (connect token) s).
Proof.
  intros [Hn Ht Hu Hf Hc Hl] Htm Hs. exec_eq.
  destruct s; cbn -[Nat.ltb Nat.leb] in *; subst.
  destruct isConnecting0; [by split|].
  destruct (Nat.leb_spec MAX_RETRY_ATTEMPTS retryCountRef0) as [Hge|Hlt].
  { destruct hasShownErrorRef0; cbn; split; cbn; try done; try (by left).
    all: try (intros _ Hge' _; unfold MAX_RETRY_ATTEMPTS in *; lia). }
  destruct (WebSocket_throws _) as [e|]; cbn -[Nat.ltb].
  - assert (∀ i wi, sockets0 !! i = Some wi → readyState wi = CONNECTING →
                    false = true) as Hnc.
    { intros i wi Hi Hci. specialize (Hf i wi Hi (Hs i wi Hi)). congruence. }
    destruct (Nat.ltb_spec (S retryCountRef0) MAX_RETRY_ATTEMPTS)
      as [Hlt'|Hge']; cbn.
    + destruct isCleaning0; cbn.
      * destruct hasShownErrorRef0; cbn;
          (split; cbn; try done; by left).
      * split; cbn; try done; [|lia].
        right. eexists _, _. by split_and!.
    + destruct hasShownErrorRef0; cbn; (split; cbn; try done; by left).
  - split; cbn.
    + done.
    + by left.
    + intros i j wi wj Hi Hj Hfi Hfj. split_lookups; cbn in *; try done.
      all: first [specialize (Hs _ _ Hi); congruence
                 |specialize (Hs _ _ Hj); congruence].
    + intros i wi Hi Hfi. split_lookups; cbn in *; [eauto | done].
    + done.
    + intros _ _ Hs'.
      specialize (Hs' (length sockets0) _ (list_lookup_middle _ [] _ _ eq_refl)).
      done.
Qed.

Lemma deliver_unchanged (k : nat) (enabled : WebSocket → bool) (s s1 : hook) :
  deliver k enabled (λ w, w) s = Some s1 → s1 = s.
Proof.
  intros (w & Hk & _ & ->)%deliver_Some.
  rewrite list_insert_id by done. by destruct s.
Qed.

Lemma inv_timeout (token : string) (t : nat) (s : hook) :
  hook_inv s → t ∈ (timers s).*1 →
  hook_inv (exec (connect token)
              (set_timers (filter (λ p, p.1 ≠ t) (timers s)) s)).
Proof.
  intros Hinv Hin.
  destruct (inv_timers s Hinv) as [Htm|(t0 & d & Htm & Hr & Hz & Hs & Hlt)].
  { rewrite Htm in Hin. by apply elem_of_nil in Hin. }
  rewrite Htm in *. cbn in Hin. apply list_elem_of_singleton in Hin as ->.
  cbn. rewrite decide_False by (by intros ?).
  destruct Hinv as [Hn Ht Hu Hf Hc Hl].
  apply inv_connect.
  - destruct s; cbn in *. split; cbn; try done. by left.
  - by destruct s.
  - by destruct s.
Qed.

Lemma inv_mount (token : string) (st : RootState) :
  hook_inv (mount token st).
Proof.
  assert (hook_inv (initial_hook st)) as Hinit.
  { split; cbn; try done; [by left|unfold MAX_RETRY_ATTEMPTS; lia]. }
  rewrite mount_eq. destruct (String.eqb token ""); [done|].
  apply inv_connect; [done..|]. by intros k w Hk.
Qed.

Lemma inv_step (token : string) (ev : event) (s s' : hook) :
  hook_inv s → step token ev s = Some s' → hook_inv s'.
Proof.
  intros Hinv Hstep. destruct ev as [k|k data|k|k|t| |]; cbn in Hstep.
  - apply fmap_Some in Hstep as (s1 & Hd & ->). by eapply inv_open.
  - apply fmap_Some in Hstep as (s1 & Hd & ->).
    apply deliver_unchanged in Hd as ->.
    destruct (ws_onmessage_store data s) as [st Hm].
    unfold exec. rewrite Hm. by apply inv_set_store.
  - apply fmap_Some in Hstep as (s1 & Hd & ->). by eapply inv_error.
  - apply fmap_Some in Hstep as (s1 & Hd & ->). by eapply inv_close.
  - case_bool_decide as Hin; [|done]. injection Hstep as <-.
    by apply inv_timeout.
  - injection Hstep as <-. by apply inv_cleanup.
  - injection Hstep as <-. by apply inv_clearError.
Qed.

Lemma inv_run (token : string) (evs : list event) (s s' : hook) :
  hook_inv s → run token evs s = Some s' → hook_inv s'.
Proof.
  revert s. induction evs as [|ev evs IH]; intros s Hinv Hrun; cbn in Hrun.
  - by injection Hrun as <-.
  - destruct (step token ev s) as [s1|] eqn:Hstep; [|done]. cbn in Hrun.
    eapply IH; [|done]. by eapply inv_step.
Qed.

Lemma run_app (token : string) (evs1 evs2 : list event) (s : hook) :
  run token (evs1 ++ evs2) s = run token evs1 s ≫= run token evs2.
Proof.
  revert s. induction evs1 as [|ev evs1 IH]; intros s; cbn; [done|].
  destruct (step token ev s) as [s1|]; cbn; [apply IH | done].
Qed.

End Invariant.

(** ** Teardown *)

Lemma cleanup_torn_down (s : hook) :
  hook_inv s →
  torn_down (exec cleanup s) ∧
  attempts (exec cleanup s) = attempts s ∧
  length (sockets (exec cleanup s)) = length (sockets s).
Proof.
  intros Hinv.
  assert (timers (if truthy_number (reconnectTimeoutRef s)
                  then exec (clearTimeout (default 0%nat (reconnectTimeoutRef s)))
                         (set_isCleaning true s)
                  else set_isCleaning true s) = []) as Htm.
  { destruct (inv_timers s Hinv) as [Ht|(t & d & Ht & Hr & Hz & _)].
    - destruct s; cbn in *; subst. by destruct (truthy_number _).
    - destruct s; cbn in *; subst. destruct t; [done|]. cbn.
      by rewrite decide_False by (by intros ?). }
  exec_eq. unfold clearTimeout, ws_close, modify, torn_down in *.
  destruct s; cbn in *.
  set (tm := if truthy_number reconnectTimeoutRef0 then _ else _) in *.
  assert (sockets tm = sockets0 ∧ attempts tm = attempts0 ∧
          isCleaning tm = true) as (Hs & Ha & Hcl).
  { subst tm. by destruct (truthy_number reconnectTimeoutRef0). }
  destruct wsRef0 as [k|]; [|by rewrite Hs].
  destruct (sockets0 !! k) as [w|] eqn:Hk; [|by rewrite Hs].
  case_bool_decide as Hopen; [|by rewrite Hs].
  clearbody tm. destruct tm; cbn in *; subst.
  by rewrite length_alter.
Qed.

Section Teardown.
Context `{Platform}.

Lemma torn_down_step (token : string) (ev : event) (s s' : hook) :
  torn_down s → step token ev s = Some s' →
  torn_down s' ∧ attempts s' = attempts s ∧
  length (sockets s') = length (sockets s).
Proof.
  intros [Hcl Htm] Hstep. unfold torn_down.
  destruct ev as [k|k data|k|k|t| |]; cbn in Hstep.
  - apply fmap_Some in Hstep as (s1 & (w & Hk & _ & ->)%deliver_Some & ->).
    exec_eq. destruct s; cbn in *. by rewrite length_insert.
  - apply fmap_Some in Hstep as (s1 & Hd & ->).
    apply deliver_unchanged in Hd as ->.
    destruct (ws_onmessage_store data s) as [st Hm].
    unfold exec. rewrite Hm. by destruct s.
  - apply fmap_Some in Hstep as (s1 & (w & Hk & _ & ->)%deliver_Some & ->).
    exec_eq. destruct s; cbn in *. by rewrite length_insert.
  - apply fmap_Some in Hstep as (s1 & (w & Hk & _ & ->)%deliver_Some & ->).
    exec_eq. destruct s; cbn in *; subst. cbn. by rewrite length_insert.
  - rewrite Htm in Hstep. cbn in Hstep.
    rewrite bool_decide_eq_false_2 in Hstep by apply not_elem_of_nil. done.
  - injection Hstep as <-. exec_eq. unfold clearTimeout, ws_close, modify.
    destruct s; cbn in *; subst.
    set (tm := if truthy_number reconnectTimeoutRef0 then _ else _) in *.
    assert (sockets tm = sockets0 ∧ attempts tm = attempts0 ∧
            isCleaning tm = true ∧ timers tm = []) as (Hs & Ha & Hcl & Htm).
    { subst tm. by destruct (truthy_number reconnectTimeoutRef0). }
    destruct wsRef0 as [k|]; [|by rewrite Hs].
    destruct (sockets0 !! k) as [w|] eqn:Hk; [|by rewrite Hs].
    case_bool_decide as Hopen; [|by rewrite Hs].
    clearbody tm. destruct tm; cbn in *; subst.
    by rewrite length_alter.
  - injection Hstep as <-. exec_eq. by destruct s.
Qed.

Lemma torn_down_run (token : string) (evs : list event) (s s' : hook) :
  torn_down s → run token evs s = Some s' →
  torn_down s' ∧ attempts s' = attempts s ∧
  length (sockets s') = length (sockets s).
Proof.
  revert s. induction evs as [|ev evs IH]; intros s Htd Hrun; cbn in Hrun.
  - by injection Hrun as <-.
  - destruct (step token ev s) as [s1|] eqn:Hstep; [|done]. cbn in Hrun.
    destruct (torn_down_step token ev s s1 Htd Hstep) as (Htd1 & Ha1 & Hl1).
    destruct (IH s1 Htd1 Hrun) as (Htd' & Ha' & Hl').
    split_and!; [done|congruence..].
Qed.

(** C3.  After the effect's cleanup has run in any state the hook can
    reach, the pending retry timer is cancelled, and over every further
    sequence of events no timer is pending or can elapse, no connection
    attempt is made and no socket is constructed: a [close] event (or any
    other) arriving after teardown schedules nothing. *)
Theorem no_reconnect_after_teardown (token : string) (st : RootState)
    (evs1 evs2 : list event) (s1 s2 : hook) :
  run token evs1 (mount token st) = Some s1 →
  run token evs2 (exec cleanup s1) = Some s2 →
  timers (exec cleanup s1) = [] ∧
  timers s2 = [] ∧
  (∀ t, step token (EvTimeout t) s2 = None) ∧
  attempts s2 = attempts s1 ∧
  length (sockets s2) = length (sockets s1).
Proof.
  intros Hrun1 Hrun2.
  assert (hook_inv s1) as Hinv by (eapply inv_run; [apply inv_mount|done]).
  destruct (cleanup_torn_down s1 Hinv) as (Htd & Ha & Hl).
  destruct (torn_down_run token evs2 _ s2 Htd Hrun2) as ([_ Htm] & Ha' & Hl').
  split_and!; [apply Htd|done| |congruence..].
  intros t. cbn. rewrite Htm. cbn.
  by rewrite bool_decide_eq_false_2 by apply not_elem_of_nil.
Qed.

End Teardown.

Lemma no_reconnect_after_teardown_witness :
  let P := test_platform None in
  let s1 := default (initial_hook initialRoot)
              (run "tok" [EvError 0; EvClose 0]%nat (mount "tok" initialRoot)) in
  let s2 := default (initial_hook initialRoot)
              (run "tok" [EvCleanup; EvClearError] (exec cleanup s1)) in
  timers s1 = [(1%nat, RETRY_DELAY)] ∧
  timers (exec cleanup s1) = [] ∧
  timers s2 = [] ∧
  (∀ t, step "tok" (EvTimeout t) s2 = None) ∧
  attempts s2 = attempts s1 ∧
  length (sockets s2) = length (sockets s1).
Proof.
  intros P s1 s2. split; [vm_compute; reflexivity|].
  apply (no_reconnect_after_teardown "tok" initialRoot
           [EvError 0; EvClose 0]%nat [EvCleanup; EvClearError] s1 s2);
    vm_compute; reflexivity.
Defined.

(** ** One attempt in flight *)

Section InFlight.
Context `{Platform}.

Lemma connect_guard (token : string) (s : hook) :
  isConnecting s = true → connect token s = (inr tt, s).
Proof. intros Hc. rewrite connect_eq. by rewrite Hc. Qed.

(** C9.  In every state the hook can reach, at most one socket is
    [CONNECTING]; and while one is (so the previous attempt has not
    resolved), or whenever the [isConnecting] flag is up, a call to
    [connect] returns leaving the state as it was: no second socket. *)
Theorem single_attempt_in_flight (token : string) (st : RootState)
    (evs : list event) (s : hook) :
  run token evs (mount token st) = Some s →
  (∀ i j wi wj,
     sockets s !! i = Some wi → sockets s !! j = Some wj →
     readyState wi = CONNECTING → readyState wj = CONNECTING → i = j) ∧
  ((∃ k w, sockets s !! k = Some w ∧ readyState w = CONNECTING) →
   connect token s = (inr tt, s)) ∧
  (isConnecting s = true → connect token s = (inr tt, s)).
Proof.
  intros Hrun.
  assert (hook_inv s) as Hinv by (eapply inv_run; [apply inv_mount|done]).
  split_and!.
  - intros i j wi wj Hi Hj Hci Hcj.
    eapply (inv_one_live s Hinv); [done..| |];
      (eapply live_of_not_closed; [done..|congruence]).
  - intros (k & w & Hk & Hw). apply connect_guard.
    by eapply inv_connecting.
  - apply connect_guard.
Qed.

End InFlight.

Lemma single_attempt_in_flight_witness :
  let P := test_platform None in
  let s := default (initial_hook initialRoot)
             (run "tok" [EvError 0; EvClose 0; EvTimeout 1]%nat
                (mount "tok" initialRoot)) in
  (readyState <$> sockets s = [CLOSED; CONNECTING]) ∧
  (∀ i j wi wj,
     sockets s !! i = Some wi → sockets s !! j = Some wj →
     readyState wi = CONNECTING → readyState wj = CONNECTING → i = j) ∧
  ((∃ k w, sockets s !! k = Some w ∧ readyState w = CONNECTING) →
   connect "tok" s = (inr tt, s)) ∧
  (isConnecting s = true → connect "tok" s = (inr tt, s)).
Proof.
  intros P s. split; [vm_compute; reflexivity|].
  apply (single_attempt_in_flight "tok" initialRoot
           [EvError 0; EvClose 0; EvTimeout 1]%nat s).
  vm_compute; reflexivity.
Defined.

(** ** The retry budget *)

(** Computes with records, leaving the comparisons with the cap folded. *)
Ltac hcbn := cbn -[Nat.ltb Nat.leb Nat.min MAX_RETRY_ATTEMPTS] in *.

Ltac budget_lia := unfold MAX_RETRY_ATTEMPTS in *; cbn [length] in *; lia.

Lemma filter_timer_shorter (t : nat) (l : list (nat * Z)) :
  t ∈ l.*1 → (length (filter (λ p, p.1 ≠ t) l) < length l)%nat.
Proof.
  induction l as [|[t' d] l IH]; [by intros ?%elem_of_nil|].
  rewrite fmap_cons. intros [Heq|Hin]%elem_of_cons.
  - cbn in Heq. subst t'.
    rewrite filter_cons_False by (cbn; by intros ?).
    pose proof (length_filter (λ p : nat * Z, p.1 ≠ t) l).
    cbn [length]. lia.
  - specialize (IH Hin). rewrite filter_cons.
    case_decide; cbn [length]; lia.
Qed.

Lemma ws_onclose_decision (s : hook) :
  isCleaning s = false →
  retry_decision (S (retryCountRef s)) s (exec ws_onclose s) ∧
  attempts (exec ws_onclose s) = attempts s.
Proof.
  intros Hcl. unfold retry_decision. exec_eq.
  destruct s; cbn -[Nat.ltb] in *; subst.
  destruct (_ <? _)%nat; cbn; [done|]. by destruct hasShownErrorRef0.
Qed.

Section Budget.
Context `{Platform}.

Lemma connect_catch_decision (token : string) (s : hook) (e : exn) :
  isCleaning s = false → isConnecting s = false →
  (retryCountRef s < MAX_RETRY_ATTEMPTS)%nat →
  WebSocket_throws (WS_URL +:+ "/ws?token=" +:+ token) = Some e →
  retry_decision (S (retryCountRef s)) s (exec (connect token) s) ∧
  attempts (exec (connect token) s) = S (attempts s).
Proof.
  intros Hcl Hc Hlt Hthrow. unfold retry_decision. exec_eq.
  rewrite Hthrow.
  destruct s; cbn -[Nat.ltb Nat.leb] in *; subst.
  destruct (Nat.leb_spec MAX_RETRY_ATTEMPTS retryCountRef0); [lia|].
  destruct (_ <? _)%nat; cbn; [done|]. by destruct hasShownErrorRef0.
Qed.

Lemma connect_at_cap (token : string) (s : hook) :
  isConnecting s = false →
  (MAX_RETRY_ATTEMPTS ≤ retryCountRef s)%nat →
  attempts (exec (connect token) s) = attempts s ∧
  sockets (exec (connect token) s) = sockets s ∧
  timers (exec (connect token) s) = timers s ∧
  hasShownErrorRef (exec (connect token) s) = true ∧
  surfaced (exec (connect token) s) =
    (if hasShownErrorRef s then surfaced s
     else CONNECTION_ERROR_MESSAGE :: surfaced s).
Proof.
  intros Hc Hge. exec_eq.
  destruct s; cbn -[Nat.ltb Nat.leb] in *; subst.
  destruct (Nat.leb_spec MAX_RETRY_ATTEMPTS retryCountRef0); [|lia].
  by destruct hasShownErrorRef0.
Qed.

Lemma budget_connect (token : string) (s : hook) :
  (attempts s + length (timers s)
     < S (retryCountRef s) `min` MAX_RETRY_ATTEMPTS)%nat →
  surfaced s =
    (if hasShownErrorRef s then [CONNECTION_ERROR_MESSAGE] else []) →
  within_budget (exec (connect token) s).
Proof.
  intros Hb Hk. unfold within_budget. exec_eq.
  destruct s; hcbn; subst.
  destruct isConnecting0; hcbn.
  { split; [budget_lia|done]. }
  destruct (Nat.leb_spec MAX_RETRY_ATTEMPTS retryCountRef0) as [Hge|Hlt].
  { destruct hasShownErrorRef0; hcbn; (split; [budget_lia|done]). }
  destruct (WebSocket_throws _) as [e|]; hcbn.
  - destruct (Nat.ltb_spec (S retryCountRef0) MAX_RETRY_ATTEMPTS)
      as [Hlt'|Hge']; hcbn.
    + destruct isCleaning0; hcbn.
      * destruct hasShownErrorRef0; hcbn; (split; [budget_lia|done]).
      * split; [budget_lia|done].
    + destruct hasShownErrorRef0; hcbn; (split; [budget_lia|done]).
  - split; [budget_lia|done].
Qed.

Lemma budget_mount (token : string) (st : RootState) :
  within_budget (mount token st).
Proof.
  rewrite mount_eq. destruct (String.eqb token "").
  - split; hcbn; [budget_lia|done].
  - apply budget_connect; hcbn; [budget_lia|done].
Qed.

Lemma budget_step (token : string) (ev : event) (s s' : hook) :
  within_budget s → is_open ev = false → step token ev s = Some s' →
  within_budget s'.
Proof.
  intros [Hb Hk] Hno Hstep. destruct ev as [k|k data|k|k|t| |]; cbn in Hstep.
  - done.
  - apply fmap_Some in Hstep as (s1 & Hd & ->).
    apply deliver_unchanged in Hd as ->.
    destruct (ws_onmessage_store data s) as [st Hm].
    unfold exec. rewrite Hm. by destruct s.
  - apply fmap_Some in Hstep as (s1 & (w & Hk' & _ & ->)%deliver_Some & ->).
    unfold within_budget. exec_eq. destruct s; hcbn. split; [lia|done].
  - apply fmap_Some in Hstep as (s1 & (w & Hk' & _ & ->)%deliver_Some & ->).
    unfold within_budget. exec_eq. destruct s; hcbn; subst.
    destruct isCleaning0; hcbn; [split; [lia|done]|].
    destruct (Nat.ltb_spec (S retryCountRef0) MAX_RETRY_ATTEMPTS); hcbn.
    + split; [budget_lia|done].
    + destruct hasShownErrorRef0; hcbn; (split; [budget_lia|done]).
  - case_bool_decide as Hin; [|done]. injection Hstep as <-.
    apply filter_timer_shorter in Hin.
    apply budget_connect; destruct s; hcbn; [lia|done].
  - injection Hstep as <-. unfold within_budget. exec_eq.
    unfold clearTimeout, ws_close, modify. destruct s; hcbn; subst.
    set (tm := if truthy_number reconnectTimeoutRef0 then _ else _) in *.
    assert ((length (timers tm) ≤ length timers0)%nat ∧
            attempts tm = attempts0 ∧ retryCountRef tm = retryCountRef0 ∧
            hasShownErrorRef tm = hasShownErrorRef0 ∧
            surfaced tm = (if hasShownErrorRef0
                           then [CONNECTION_ERROR_MESSAGE] else []))
      as (Ht & Ha & Hr & Hf & Hs).
    { subst tm. destruct (truthy_number reconnectTimeoutRef0); hcbn;
        [|done]. split; [apply length_filter|done]. }
    assert (within_budget tm) as Hbase.
    { split; [lia|by rewrite Hf]. }
    destruct wsRef0 as [k|]; [|done].
    destruct (sockets0 !! k) as [w|] eqn:Hk'; [|done].
    case_bool_decide as Hopen; [|done].
    clearbody tm. destruct tm; hcbn; subst. split; [lia|done].
  - injection Hstep as <-. unfold within_budget. exec_eq.
    by destruct s.
Qed.

Lemma budget_run (token : string) (evs : list event) (s s' : hook) :
  within_budget s → forallb (λ ev, negb (is_open ev)) evs = true →
  run token evs s = Some s' → within_budget s'.
Proof.
  revert s. induction evs as [|ev evs IH]; intros s Hb Hno Hrun;
    cbn in Hrun, Hno.
  - by injection Hrun as <-.
  - apply andb_true_iff in Hno as [Hev Hno]. apply negb_true_iff in Hev.
    destruct (step token ev s) as [s1|] eqn:Hstep; [|done]. cbn in Hrun.
    eapply IH; [|done..]. by eapply budget_step.
Qed.

(** Every socket comes from an attempt. *)
Lemma sockets_attempts_connect (token : string) (s : hook) :
  (length (sockets s) ≤ attempts s)%nat →
  (length (sockets (exec (connect token) s))
     ≤ attempts (exec (connect token) s))%nat.
Proof.
  intros Hle. exec_eq. destruct s; hcbn.
  destruct isConnecting0; hcbn; [done|].
  destruct (_ <=? _)%nat; hcbn; [by destruct hasShownErrorRef0|].
  destruct (WebSocket_throws _); hcbn.
  - destruct (_ && _); hcbn; [lia|]. destruct hasShownErrorRef0; hcbn; lia.
  - rewrite length_app. cbn. lia.
Qed.

Lemma sockets_attempts_step (token : string) (ev : event) (s s' : hook) :
  (length (sockets s) ≤ attempts s)%nat → step token ev s = Some s' →
  (length (sockets s') ≤ attempts s')%nat.
Proof.
  intros Hle Hstep. destruct ev as [k|k data|k|k|t| |]; cbn in Hstep.
  - apply fmap_Some in Hstep as (s1 & (w & Hk & _ & ->)%deliver_Some & ->).
    exec_eq. destruct s; hcbn. by rewrite length_insert.
  - apply fmap_Some in Hstep as (s1 & Hd & ->).
    apply deliver_unchanged in Hd as ->.
    destruct (ws_onmessage_store data s) as [st' Hm].
    unfold exec. rewrite Hm. by destruct s.
  - apply fmap_Some in Hstep as (s1 & (w & Hk & _ & ->)%deliver_Some & ->).
    exec_eq. destruct s; hcbn. by rewrite length_insert.
  - apply fmap_Some in Hstep as (s1 & (w & Hk & _ & ->)%deliver_Some & ->).
    exec_eq. destruct s; hcbn.
    destruct isCleaning0; hcbn; [by rewrite length_insert|].
    destruct (_ <? _)%nat; hcbn; [by rewrite length_insert|].
    destruct hasShownErrorRef0; hcbn; by rewrite length_insert.
  - case_bool_decide as Hin; [|done]. injection Hstep as <-.
    apply sockets_attempts_connect. by destruct s.
  - injection Hstep as <-.
    exec_eq. unfold clearTimeout, ws_close, modify. destruct s; hcbn.
    set (tm := if truthy_number reconnectTimeoutRef0 then _ else _) in *.
    assert (sockets tm = sockets0 ∧ attempts tm = attempts0) as [Hs Ha].
    { subst tm. by destruct (truthy_number reconnectTimeoutRef0). }
    destruct wsRef0 as [k|]; [|by rewrite Hs, Ha].
    destruct (sockets0 !! k) as [w|] eqn:Hk; [|by rewrite Hs, Ha].
    case_bool_decide as Hopen; [|by rewrite Hs, Ha].
    clearbody tm. destruct tm; hcbn; subst. by rewrite length_alter.
  - injection Hstep as <-. exec_eq. by destruct s.
Qed.

Lemma sockets_attempts_run (token : string) (evs : list event) (s s' : hook) :
  (length (sockets s) ≤ attempts s)%nat → run token evs s = Some s' →
  (length (sockets s') ≤ attempts s')%nat.
Proof.
  revert s. induction evs as [|ev evs IH]; intros s Hle Hrun; cbn in Hrun.
  - by injection Hrun as <-.
  - destruct (step token ev s) as [s1|] eqn:Hstep; [|done]. cbn in Hrun.
    eapply IH; [|done]. by eapply sockets_attempts_step.
Qed.

Lemma sockets_attempts_mount (token : string) (st : RootState) :
  (length (sockets (mount token st)) ≤ attempts (mount token st))%nat.
Proof.
  rewrite mount_eq. destruct (String.eqb token ""); [done|].
  by apply sockets_attempts_connect.
Qed.

(** C1.  The retry decision is a function of the attempt count: wherever
    the hook takes it (on a [close] event, or when the socket constructor
    throws) a count below [MAX_RETRY_ATTEMPTS] schedules one reconnection
    after [RETRY_DELAY] = 3000 ms and surfaces nothing, and a count at or
    above it schedules nothing, sets the ErrorFlag and surfaces the notice
    (once: not again if the flag is already set); [connect] called with
    the counter at the cap constructs nothing.  So, as long as no socket
    opens, at most [MAX_RETRY_ATTEMPTS] = 3 connection attempts are ever
    made and at most one notice is surfaced, and once the counter has
    reached the cap with every socket closed, exactly one notice has been
    surfaced and no retry is pending. *)
Theorem retry_budget_is_enforced (token : string) (st : RootState) :
  (∀ s : hook, isCleaning s = false →
     retry_decision (S (retryCountRef s)) s (exec ws_onclose s) ∧
     attempts (exec ws_onclose s) = attempts s) ∧
  (∀ (s : hook) (e : exn),
     isCleaning s = false → isConnecting s = false →
     (retryCountRef s < MAX_RETRY_ATTEMPTS)%nat →
     WebSocket_throws (WS_URL +:+ "/ws?token=" +:+ token) = Some e →
     retry_decision (S (retryCountRef s)) s (exec (connect token) s)) ∧
  (∀ s : hook, isConnecting s = false →
     (MAX_RETRY_ATTEMPTS ≤ retryCountRef s)%nat →
     attempts (exec (connect token) s) = attempts s ∧
     sockets (exec (connect token) s) = sockets s ∧
     timers (exec (connect token) s) = timers s ∧
     hasShownErrorRef (exec (connect token) s) = true) ∧
  (∀ (evs : list event) (s : hook),
     forallb (λ ev, negb (is_open ev)) evs = true →
     run token evs (mount token st) = Some s →
     (attempts s ≤ MAX_RETRY_ATTEMPTS)%nat ∧
     (length (sockets s) ≤ attempts s)%nat ∧
     (length (surfaced s) ≤ 1)%nat ∧
     (isCleaning s = false →
      (MAX_RETRY_ATTEMPTS ≤ retryCountRef s)%nat → settled s →
      surfaced s = [CONNECTION_ERROR_MESSAGE] ∧ timers s = [])).
Proof.
  split_and!.
  - apply ws_onclose_decision.
  - intros s e Hcl Hc Hlt Hthrow.
    by destruct (connect_catch_decision token s e Hcl Hc Hlt Hthrow).
  - intros s Hc Hge.
    destruct (connect_at_cap token s Hc Hge) as (? & ? & ? & ? & _). done.
  - intros evs s Hno Hrun.
    assert (hook_inv s) as Hinv by (eapply inv_run; [apply inv_mount|done]).
    destruct (budget_run token evs _ s (budget_mount token st) Hno Hrun)
      as [Hb Hk].
    split_and!.
    + budget_lia.
    + eapply sockets_attempts_run; [apply sockets_attempts_mount|done].
    + rewrite Hk. destruct (hasShownErrorRef s); cbn; lia.
    + intros Hcl Hge Hs. rewrite Hk, (inv_failed s Hinv Hcl Hge Hs).
      split; [done|].
      destruct (inv_timers s Hinv) as [?|(t & d & _ & _ & _ & _ & Hlt)];
        [done|lia].
Qed.

End Budget.

(** The end-to-end scenario: three attempts, each closed by the server
    before it opens. *)
Lemma retry_budget_witness :
  let P := test_platform None in
  let evs := [EvClose 0; EvTimeout 1; EvClose 1; EvTimeout 2; EvClose 2]%nat in
  let s := default (initial_hook initialRoot)
             (run "tok" evs (mount "tok" initialRoot)) in
  retry_decision 1 (mount "tok" initialRoot)
    (exec ws_onclose (mount "tok" initialRoot)) ∧
  (retryCountRef s, attempts s) = (3, 3)%nat ∧
  (attempts s ≤ MAX_RETRY_ATTEMPTS)%nat ∧
  surfaced s = [CONNECTION_ERROR_MESSAGE] ∧ timers s = [] ∧
  run "tok" (evs ++ [EvTimeout 3%nat]) (mount "tok" initialRoot) = None.
Proof.
  intros P evs s.
  destruct (retry_budget_is_enforced "tok" initialRoot)
    as (Hclose & _ & _ & Hrun).
  destruct (Hclose (mount "tok" initialRoot)) as [Hdec _];
    [vm_compute; reflexivity|].
  destruct (Hrun evs s) as (Ha & _ & _ & Hfail);
    [vm_compute; reflexivity..|].
  destruct Hfail as [Hsurf Htm].
  - vm_compute; reflexivity.
  - vm_compute. lia.
  - intros k w Hk.
    destruct k as [|[|[|k]]]; vm_compute in Hk;
      first [discriminate Hk | by injection Hk as <-].
  - split_and!; [exact Hdec|vm_compute; reflexivity|exact Ha|exact Hsurf
                 |exact Htm|vm_compute; reflexivity].
Defined.

(** The same budget when the socket constructor throws at every attempt
    (a [VITE_WS_URL] without a [ws:] scheme): three attempts, then the
    notice, and no timer left. *)
Example three_throwing_attempts :
  let P := test_platform (Some "localhost:8000") in
  let view s := (retryCountRef s, attempts s, sockets s, timers s, surfaced s) in
  view <$> run "tok" [EvTimeout 1; EvTimeout 2]%nat (mount "tok" initialRoot)
    = Some (3, 3, [], [], [CONNECTION_ERROR_MESSAGE])%nat ∧
  run "tok" [EvTimeout 1; EvTimeout 2; EvTimeout 3]%nat
    (mount "tok" initialRoot) = None.
Proof. vm_compute. done. Qed.

(** A run in which the first two attempts are closed by the server and the
    third opens, then receives a frame. *)
Example two_closes_then_open :
  let P := test_platform None in
  let view s := (retryCountRef s, attempts s, surfaced s,
                 ids (items (requests (store s)))) in
  view <$> run "tok" [EvClose 0; EvTimeout 1; EvClose 1; EvTimeout 2;
                      EvOpen 2; EvMessage 2 (frame_of "new_request")]%nat
             (mount "tok" initialRoot)
    = Some (0%nat, 3%nat, [], [7]).
Proof. vm_compute. done. Qed.

(** Both branches of C5 on a concrete store: identifier 7 is present (so
    the record at position 1 is replaced in place), identifier 9 is not
    (so the update is dropped). *)
Lemma updated_replaces_witness :
  let st := dispatch_all initialRoot
              [actions.addRequest (sample_request 7 Pending);
               actions.addRequest (sample_request 5 Pending)] in
  (∃ i, replaced_at i (sample_request 7 Completed) (items (requests st))
          (items (requests
             (rootReducer st (actions.updateRequest (sample_request 7 Completed)))))) ∧
  requests (rootReducer st (actions.updateRequest (sample_request 9 Completed)))
    = requests st.
Proof.
  intros st.
  destruct (updated_replaces_in_place_or_is_dropped st) as [Hreq _].
  split.
  - destruct (Hreq (sample_request 7 Completed)) as [[Hpresent _] _].
    apply Hpresent. exists (sample_request 7 Pending). split; [|done].
    vm_compute. apply list_elem_of_further, list_elem_of_here.
  - destruct (Hreq (sample_request 9 Completed)) as [[_ Habsent] _].
    apply Habsent. intros (r & Hr & Hid). vm_compute in Hr.
    apply elem_of_cons in Hr as [->|Hr]; [done|].
    apply elem_of_cons in Hr as [->|Hr]; [done|].
    by apply elem_of_nil in Hr.
Defined.

(** * Further properties of the store *)

Section SliceComposition.
Context {T : Type} `{Keyed T}.

(** X1.  Applying the same "updated" payload twice is the same as applying
    it once. *)
Theorem update_twice_is_update_once (s : SliceState T) (p : T) :
  Slice.updateItem (Slice.updateItem s p) p = Slice.updateItem s p.
Proof.
  destruct (first_match_or_none (λ r, ident r =? ident p) (items s))
    as [(n & x & Hn & Hx & Hlow)|Habs].
  - apply Z.eqb_eq in Hx.
    assert (∀ j y, (j < n)%nat → items s !! j = Some y → ident y ≠ ident p)
      as Hlow' by (intros j y Hlt Hj; apply Z.eqb_neq; eauto).
    rewrite (updateItem_first s p n x Hn Hx Hlow').
    rewrite (updateItem_first _ p n p); cbn.
    + by rewrite list_insert_insert_eq.
    + apply list_lookup_insert_eq. by eapply lookup_lt_Some.
    + done.
    + intros j y Hlt Hj. rewrite list_lookup_insert_ne in Hj by lia. eauto.
  - assert (∀ x, x ∈ items s → ident x ≠ ident p) as Habs'
      by (intros x Hx; apply Z.eqb_neq; eauto).
    by rewrite !(updateItem_absent s p Habs').
Qed.

(** X2.  An "updated" payload that follows a "new" payload with the same
    identifier replaces the record just inserted at the front, whatever
    else the collection holds: the result is as if the later payload had
    been inserted. *)
Theorem update_after_insert_replaces_head (s : SliceState T) (p q : T) :
  ident q = ident p →
  Slice.updateItem (Slice.addItem s p) q = Slice.addItem s q.
Proof.
  intros Hid. rewrite (updateItem_first _ q 0 p); [done..|].
  intros j y Hlt. lia.
Qed.

Lemma updateItem_length (s : SliceState T) (p : T) :
  length (items (Slice.updateItem s p)) = length (items s).
Proof.
  rewrite <- (length_fmap ident (items (Slice.updateItem s p))).
  rewrite <- (length_fmap ident (items s)). f_equal. apply updateItem_ids.
Qed.

End SliceComposition.

Lemma update_after_insert_witness :
  let s := Slice.addItem Slice.initialState (sample_request 7 InProgress) in
  Slice.updateItem (Slice.addItem s (sample_request 7 Pending))
    (sample_request 7 Completed)
  = Slice.addItem s (sample_request 7 Completed).
Proof.
  intros s.
  apply (update_after_insert_replaces_head s (sample_request 7 Pending)
           (sample_request 7 Completed)).
  reflexivity.
Defined.

(** X3.  A sequence of actions that holds no insert and no snapshot (so
    only updates and the loading and error setters) leaves the identifiers
    of both collections, in their order, as they were. *)
Theorem updates_keep_identifiers (st : RootState) (acts : list actions.Action) :
  forallb (λ a, negb (is_addRequest a || is_addFeedback a || is_snapshot a))
    acts = true →
  ids (items (requests (dispatch_all st acts))) = ids (items (requests st)) ∧
  ids (items (feedback (dispatch_all st acts))) = ids (items (feedback st)).
Proof.
  revert st. induction acts as [|a acts IH]; intros st Hall; [done|].
  cbn in Hall. apply andb_true_iff in Hall as [Ha Hall].
  unfold dispatch_all in *. cbn [foldl].
  destruct (IH (rootReducer st a) Hall) as [-> ->].
  destruct a; cbn in Ha; try done; cbn; split; try done.
  - apply (updateItem_ids (T := Request.t)).
  - apply (updateItem_ids (T := Feedback.t)).
Qed.

Lemma updates_keep_identifiers_witness :
  let st := dispatch_all initialRoot
              [actions.addRequest (sample_request 7 Pending);
               actions.addRequest (sample_request 5 Pending)] in
  let acts := [actions.updateRequest (sample_request 7 Completed);
               actions.requests_setLoading true;
               actions.updateFeedback (sample_feedback 3 Positive)] in
  ids (items (requests (dispatch_all st acts))) = [5; 7] ∧
  ids (items (feedback (dispatch_all st acts))) = [].
Proof.
  intros st acts. apply (updates_keep_identifiers st acts). reflexivity.
Defined.

(** X4.  Without a snapshot in between, the length of each collection
    after a sequence of actions is its length before plus the number of
    inserts into it: an update never adds or removes a record. *)
Theorem length_counts_inserts (st : RootState) (acts : list actions.Action) :
  forallb (λ a, negb (is_snapshot a)) acts = true →
  length (items (requests (dispatch_all st acts)))
    = (length (items (requests st))
       + length (filter (λ a, is_addRequest a = true) acts))%nat ∧
  length (items (feedback (dispatch_all st acts)))
    = (length (items (feedback st))
       + length (filter (λ a, is_addFeedback a = true) acts))%nat.
Proof.
  revert st. induction acts as [|a acts IH]; intros st Hall.
  { cbn. split; lia. }
  cbn in Hall. apply andb_true_iff in Hall as [Ha Hall].
  unfold dispatch_all in *. cbn [foldl].
  destruct (IH (rootReducer st a) Hall) as [-> ->].
  rewrite !filter_cons.
  destruct a; cbn in Ha; try done;
    cbn -[Slice.updateItem length];
    unfold requestsSlice.updateRequest, feedbackSlice.updateFeedback;
    rewrite ?updateItem_length; cbn [length]; split;
    repeat case_decide; try done; cbn [length]; lia.
Qed.

Lemma length_counts_inserts_witness :
  let acts := [actions.addRequest (sample_request 7 Pending);
               actions.updateRequest (sample_request 9 Completed);
               actions.addRequest (sample_request 7 Completed);
               actions.addFeedback (sample_feedback 3 Positive)] in
  length (items (requests (dispatch_all initialRoot acts))) = 2%nat ∧
  length (items (feedback (dispatch_all initialRoot acts))) = 1%nat.
Proof.
  intros acts. apply (length_counts_inserts initialRoot acts). reflexivity.
Defined.

(** * Properties of the list components *)

Lemma request_passes_iff (sf cf : string) (r : Request.t) :
  request_passes sf cf r = true ↔
  (sf = "all" ∨ status_text (Request.status r) = sf) ∧
  (cf = "all" ∨ Request.category r = cf).
Proof.
  unfold request_passes.
  destruct (String.eqb_spec sf "all"), (String.eqb_spec cf "all"),
    (String.eqb_spec (status_text (Request.status r)) sf),
    (String.eqb_spec (Request.category r) cf); cbn; intuition congruence.
Qed.

Lemma feedback_passes_iff (sf : string) (f : Feedback.t) :
  feedback_passes sf f = true ↔
  (sf = "all" ∨ sentiment_text (Feedback.sentiment f) = sf).
Proof.
  unfold feedback_passes.
  destruct (String.eqb_spec sf "all"),
    (String.eqb_spec (sentiment_text (Feedback.sentiment f)) sf);
    cbn; intuition congruence.
Qed.

(** X5.  The array [filteredRequests] is the stored list with the requests
    that fail a filter removed, one by one: a request that passes both
    filters is kept where it stands, as often as it is stored, and one
    that fails either is dropped.  A filter set to "all" passes every
    request, a status filter passes by the status's text, a category
    filter by the category. *)
Theorem filteredRequests_keeps_exactly_matches (sf cf : string) :
  filteredRequests sf cf [] = [] ∧
  (∀ r l,
     (sf = "all" ∨ status_text (Request.status r) = sf) ∧
     (cf = "all" ∨ Request.category r = cf) →
     filteredRequests sf cf (r :: l) = r :: filteredRequests sf cf l) ∧
  (∀ r l,
     ¬ ((sf = "all" ∨ status_text (Request.status r) = sf) ∧
        (cf = "all" ∨ Request.category r = cf)) →
     filteredRequests sf cf (r :: l) = filteredRequests sf cf l) ∧
  (∀ l, filteredRequests sf cf l `sublist_of` l) ∧
  (∀ l r, r ∈ filteredRequests sf cf l ↔
          r ∈ l ∧
          (sf = "all" ∨ status_text (Request.status r) = sf) ∧
          (cf = "all" ∨ Request.category r = cf)).
Proof.
  unfold filteredRequests. split_and!.
  - done.
  - intros r l Hm. apply filter_cons_True. by apply request_passes_iff.
  - intros r l Hm. apply filter_cons_False. by rewrite request_passes_iff.
  - intros l. apply sublist_filter.
  - intros l r. rewrite list_elem_of_filter, request_passes_iff. tauto.
Qed.

(** X6.  With both filters at "all" every stored request is shown, and
    filtering by status and category at once is filtering by category and
    then by status. *)
Theorem filteredRequests_composes (sf cf : string) (l : list Request.t) :
  filteredRequests "all" "all" l = l ∧
  filteredRequests sf cf l
    = filteredRequests sf "all" (filteredRequests "all" cf l).
Proof.
  unfold filteredRequests. split.
  - induction l as [|r l IH]; [done|].
    rewrite filter_cons_True by done. by rewrite IH.
  - rewrite list_filter_filter. apply list_filter_iff. intros r.
    rewrite !request_passes_iff. intuition congruence.
Qed.

(** X7.  The array [filteredFeedbacks] is the stored list with the feedback
    that fails the filter removed, one by one: an entry whose sentiment
    text equals the filter is kept where it stands, as often as it is
    stored, any other is dropped, and the filter "all" keeps the list as
    it is. *)
Theorem filteredFeedbacks_keeps_exactly_matches (sf : string) :
  filteredFeedbacks sf [] = [] ∧
  (∀ f l,
     sf = "all" ∨ sentiment_text (Feedback.sentiment f) = sf →
     filteredFeedbacks sf (f :: l) = f :: filteredFeedbacks sf l) ∧
  (∀ f l,
     ¬ (sf = "all" ∨ sentiment_text (Feedback.sentiment f) = sf) →
     filteredFeedbacks sf (f :: l) = filteredFeedbacks sf l) ∧
  (∀ l, filteredFeedbacks sf l `sublist_of` l) ∧
  (∀ l f, f ∈ filteredFeedbacks sf l ↔
          f ∈ l ∧ (sf = "all" ∨ sentiment_text (Feedback.sentiment f) = sf)) ∧
  (∀ l, filteredFeedbacks "all" l = l).
Proof.
  unfold filteredFeedbacks. split_and!.
  - done.
  - intros f l Hm. apply filter_cons_True. by apply feedback_passes_iff.
  - intros f l Hm. apply filter_cons_False. by rewrite feedback_passes_iff.
  - intros l. apply sublist_filter.
  - intros l f. rewrite list_elem_of_filter, feedback_passes_iff. tauto.
  - intros l. induction l as [|f l IH]; [done|].
    rewrite filter_cons_True by done. by rewrite IH.
Qed.

(** The set built from an accumulator: what [Set_from] folds. *)
Lemma Set_fold_facts (xs acc : list string) :
  let out := foldl (λ set x, if bool_decide (x ∈ set) then set else set ++ [x])
               acc xs in
  (NoDup acc → NoDup out) ∧
  (∀ x, x ∈ out ↔ x ∈ acc ∨ x ∈ xs) ∧
  acc `prefix_of` out.
Proof.
  revert acc. induction xs as [|y xs IH]; intros acc; cbn.
  { split_and!; [done| |done]. intros x. rewrite elem_of_nil. tauto. }
  case_bool_decide as Hin.
  - destruct (IH acc) as (Hnd & Hel & Hpre). split_and!; [done| |done].
    intros x. rewrite Hel, elem_of_cons. intuition (subst; auto).
  - destruct (IH (acc ++ [y])) as (Hnd & Hel & Hpre). split_and!.
    + intros Hacc. apply Hnd. apply NoDup_app. split_and!; [done| |].
      * intros x Hx ->%list_elem_of_singleton. done.
      * apply NoDup_singleton.
    + intros x. rewrite Hel, elem_of_app, list_elem_of_singleton, elem_of_cons.
      tauto.
    + by eapply prefix_app_l.
Qed.

(** X8.  The category options are the categories of the stored requests,
    each once, and in order of first appearance: requests added at the end
    of the list only add options at the end. *)
Theorem categories_are_distinct (l l' : list Request.t) :
  NoDup (categories l) ∧
  (∀ c, c ∈ categories l ↔ ∃ r, r ∈ l ∧ Request.category r = c) ∧
  categories l `prefix_of` categories (l ++ l').
Proof.
  unfold categories, Set_from. split_and!.
  - apply (Set_fold_facts (Request.category <$> l) []). apply NoDup_nil_2.
  - intros c.
    rewrite (proj1 (proj2 (Set_fold_facts (Request.category <$> l) []))).
    rewrite elem_of_nil, list_elem_of_fmap.
    split; [intros [[]|(r & -> & Hr)]; eauto | intros (r & Hr & <-); eauto].
  - rewrite fmap_app, foldl_app.
    apply (Set_fold_facts (Request.category <$> l')).
Qed.

(** X9.  Every category offered in the select has at least one request
    to show. *)
Theorem offered_category_is_not_empty (l : list Request.t) (c : string) :
  c ∈ categories l → filteredRequests "all" c l ≠ [].
Proof.
  intros Hc. unfold categories, Set_from in Hc.
  rewrite (proj1 (proj2 (Set_fold_facts (Request.category <$> l) []))) in Hc.
  rewrite elem_of_nil, list_elem_of_fmap in Hc.
  destruct Hc as [[]|(r & -> & Hr)].
  assert (r ∈ filteredRequests "all" (Request.category r) l) as Hin.
  { unfold filteredRequests. rewrite list_elem_of_filter, request_passes_iff.
    auto. }
  intros Hnil. rewrite Hnil in Hin. by apply elem_of_nil in Hin.
Qed.

Lemma offered_category_witness :
  filteredRequests "all" "housekeeping"
    [sample_request 7 Pending; sample_request 5 Completed] ≠ [].
Proof.
  apply offered_category_is_not_empty.
  vm_compute. apply list_elem_of_here.
Defined.

(** With unique identifiers, a stored record is the first with its
    identifier. *)
Lemma unique_is_first {T : Type} `{Keyed T} (l : list T) (i : nat) (x : T) :
  unique_ids l → l !! i = Some x →
  ∀ j y, (j < i)%nat → l !! j = Some y → ident y ≠ ident x.
Proof.
  intros Hnd Hi j y Hlt Hj Heq.
  assert (i = j); [|lia].
  eapply (NoDup_lookup _ i j (ident x) Hnd).
  - unfold ids. rewrite list_lookup_fmap, Hi. done.
  - unfold ids. rewrite list_lookup_fmap, Hj. cbn. by rewrite Heq.
Qed.

(** X10.  "Mark Complete" on a rendered request, in a store with unique
    identifiers: when the PATCH succeeds and returns the record under the
    same identifier, that row is replaced by the returned record where it
    stands and nothing else in the store changes: every other row, the
    number of rows, the [loading] and [error] fields of the requests slice
    and the whole feedback slice are as before; a returned record that
    is completed no longer gets the button; when the PATCH fails the store
    is unchanged. *)
Theorem mark_complete_replaces_the_row (user : option User.t)
    (request data : Request.t) (st : RootState) (i : nat) :
  unique_ids (items (requests st)) →
  items (requests st) !! i = Some request →
  Request.id data = Request.id request →
  items (requests (handleMarkComplete request (Some data) st)) !! i
    = Some data ∧
  (∀ j, j ≠ i →
     items (requests (handleMarkComplete request (Some data) st)) !! j
       = items (requests st) !! j) ∧
  length (items (requests (handleMarkComplete request (Some data) st)))
    = length (items (requests st)) ∧
  loading (requests (handleMarkComplete request (Some data) st))
    = loading (requests st) ∧
  error (requests (handleMarkComplete request (Some data) st))
    = error (requests st) ∧
  feedback (handleMarkComplete request (Some data) st) = feedback st ∧
  (Request.status data = Completed → showMarkComplete user data = false) ∧
  handleMarkComplete request None st = st.
Proof.
  intros Hnd Hi Hid.
  pose proof (unique_is_first _ i request Hnd Hi) as Hlow.
  assert (requests (handleMarkComplete request (Some data) st)
          = {| items := <[i := data]> (items (requests st));
               loading := loading (requests st);
               error := error (requests st) |}) as ->.
  { cbn. unfold requestsSlice.updateRequest.
    apply (updateItem_first (T := Request.t) _ data i request); [done|..].
    - by symmetry.
    - intros j y Hlt Hj. unfold ident, Request_keyed. rewrite Hid.
      by apply (Hlow j y). }
  cbn. split_and!; try done.
  - apply list_lookup_insert_eq. by eapply lookup_lt_Some.
  - intros j Hj. by apply list_lookup_insert_ne.
  - apply length_insert.
  - intros Hst. unfold showMarkComplete. rewrite Hst.
    rewrite (bool_decide_eq_true_2 (Completed = Completed)) by done.
    by rewrite andb_false_r.
Qed.

Lemma mark_complete_witness :
  let st := dispatch_all initialRoot
              [actions.addRequest (sample_request 7 Pending);
               actions.addRequest (sample_request 5 Pending)] in
  let user := Some (User.mk 1 "m@hotel.test" "Mo" Manager "2024-01-01") in
  showMarkComplete user (sample_request 7 Pending) = true ∧
  items (requests (handleMarkComplete (sample_request 7 Pending)
                     (Some (sample_request 7 Completed)) st)) !! 1%nat
    = Some (sample_request 7 Completed) ∧
  showMarkComplete user (sample_request 7 Completed) = false.
Proof.
  intros st user.
  destruct (mark_complete_replaces_the_row user (sample_request 7 Pending)
              (sample_request 7 Completed) st 1)
    as (Hrow & _ & _ & _ & _ & _ & Hbtn & _).
  - unfold unique_ids. vm_compute.
    apply NoDup_cons. split; [|apply NoDup_singleton].
    intros Hin%list_elem_of_singleton. discriminate Hin.
  - reflexivity.
  - reflexivity.
  - split_and!; [reflexivity|exact Hrow|by apply Hbtn].
Defined.

(** X11.  "Generate Smart Response" on a rendered feedback, in a store
    with unique identifiers: when the POST succeeds the row is replaced in
    place by the rendered record carrying the returned text; the button is
    then gone if the text is non-empty, and is still offered (to a manager,
    on negative feedback) if the text is empty or missing.  When the POST
    fails the store is unchanged.  Either way [generatingResponse] ends
    [null]. *)
Theorem generate_response_replaces_the_row (user : option User.t)
    (f : Feedback.t) (smart : option string) (st : RootState) (i : nat) :
  unique_ids (items (feedback st)) →
  items (feedback st) !! i = Some f →
  items (feedback (handleGenerateResponse f (Some smart) st).1) !! i
    = Some (with_smart_response f smart) ∧
  (∀ j, j ≠ i →
     items (feedback (handleGenerateResponse f (Some smart) st).1) !! j
       = items (feedback st) !! j) ∧
  requests (handleGenerateResponse f (Some smart) st).1 = requests st ∧
  showGenerateResponse user (with_smart_response f smart)
    = bool_decide (User.role <$> user = Some Manager)
      && bool_decide (Feedback.sentiment f = Negative)
      && negb (truthy_string smart) ∧
  (handleGenerateResponse f (Some smart) st).2 = None ∧
  handleGenerateResponse f None st = (st, None).
Proof.
  intros Hnd Hi.
  pose proof (unique_is_first _ i f Hnd Hi) as Hlow.
  assert (feedback (handleGenerateResponse f (Some smart) st).1
          = {| items := <[i := with_smart_response f smart]>
                          (items (feedback st));
               loading := loading (feedback st);
               error := error (feedback st) |}) as ->.
  { cbn. unfold feedbackSlice.updateFeedback.
    by apply (updateItem_first (T := Feedback.t) _ _ i f). }
  cbn. split_and!; try done.
  - apply list_lookup_insert_eq. by eapply lookup_lt_Some.
  - intros j Hj. by apply list_lookup_insert_ne.
Qed.

Lemma generate_response_witness :
  let st := dispatch_all initialRoot
              [actions.addFeedback (sample_feedback 3 Negative);
               actions.addFeedback (sample_feedback 4 Positive)] in
  let user := Some (User.mk 1 "m@hotel.test" "Mo" Manager "2024-01-01") in
  items (feedback (handleGenerateResponse (sample_feedback 3 Negative)
                     (Some (Some "We are sorry")) st).1) !! 1%nat
    = Some (with_smart_response (sample_feedback 3 Negative)
              (Some "We are sorry")) ∧
  showGenerateResponse user
    (with_smart_response (sample_feedback 3 Negative) (Some "We are sorry"))
    = false ∧
  showGenerateResponse user
    (with_smart_response (sample_feedback 3 Negative) (Some ""))
    = true.
Proof.
  intros st user.
  destruct (generate_response_replaces_the_row user (sample_feedback 3 Negative)
              (Some "We are sorry") st 1) as (Hrow & _ & _ & Hbtn & _).
  - unfold unique_ids. vm_compute.
    apply NoDup_cons. split; [|apply NoDup_singleton].
    intros Hin%list_elem_of_singleton. discriminate Hin.
  - reflexivity.
  - split_and!; [exact Hrow|rewrite Hbtn; reflexivity|reflexivity].
Defined.

(** * Further properties of the hook *)

Section Frames.
Context `{Platform}.

(** X12.  Whatever the frame, [onmessage] returns normally and leaves the
    connection as it is: the RetryCounter, the ErrorFlag, the notice, the
    socket handle, the sockets, the timers and both flags are untouched;
    only the store can change. *)
Theorem frame_cannot_disturb_connection (data : string) (s : hook) :
  (ws_onmessage data s).1 = inr tt ∧
  retryCountRef (exec (ws_onmessage data) s) = retryCountRef s ∧
  hasShownErrorRef (exec (ws_onmessage data) s) = hasShownErrorRef s ∧
  connectionError (exec (ws_onmessage data) s) = connectionError s ∧
  surfaced (exec (ws_onmessage data) s) = surfaced s ∧
  wsRef (exec (ws_onmessage data) s) = wsRef s ∧
  sockets (exec (ws_onmessage data) s) = sockets s ∧
  attempts (exec (ws_onmessage data) s) = attempts s ∧
  timers (exec (ws_onmessage data) s) = timers s ∧
  reconnectTimeoutRef (exec (ws_onmessage data) s) = reconnectTimeoutRef s ∧
  isConnecting (exec (ws_onmessage data) s) = isConnecting s ∧
  isCleaning (exec (ws_onmessage data) s) = isCleaning s.
Proof.
  destruct (ws_onmessage_store data s) as [st Hm].
  unfold exec. rewrite Hm. by destruct s.
Qed.

(** X13.  A frame that parses to [null], or to a value whose [type] is not
    one of the four message kinds (a missing or non-string [type]
    included), is ignored: the handler returns normally and nothing
    changes, the store included. *)
Theorem unrecognised_frame_is_ignored (data : string) (s : hook) :
  JSON_parse data = Some JSnull ∨
  (∃ type d, JSON_parse data = Some (JSvalue type d) ∧
     type ≠ Some "new_request" ∧ type ≠ Some "request_updated" ∧
     type ≠ Some "new_feedback" ∧ type ≠ Some "feedback_updated") →
  ws_onmessage data s = (inr tt, s).
Proof.
  intros [Hp|(type & d & Hp & H1 & H2 & H3 & H4)]; run_handler; rewrite Hp;
    cbn; [done|].
  by rewrite !bool_decide_eq_false_2 by done.
Qed.

(** X14.  An "updated" frame whose identifier is not in its collection is
    dropped without a trace: the handler returns normally and the whole
    state, store included, is as before. *)
Theorem update_frame_for_absent_id_is_dropped (data : string) (d : any)
    (s : hook) :
  (JSON_parse data = Some (JSvalue (Some "request_updated") d) ∧
   ∀ r, r ∈ items (requests (store s)) →
        Request.id r ≠ Request.id (as_Request d)) ∨
  (JSON_parse data = Some (JSvalue (Some "feedback_updated") d) ∧
   ∀ f, f ∈ items (feedback (store s)) →
        Feedback.id f ≠ Feedback.id (as_Feedback d)) →
  ws_onmessage data s = (inr tt, s).
Proof.
  intros [[Hp Habs]|[Hp Habs]];
    unfold ws_onmessage, try_catch, throw, dispatch, modify, skip;
    unfold mbind, M_bind, mret, M_ret; rewrite Hp;
    cbn -[Slice.updateItem]; unfold rootReducer;
    cbn -[Slice.updateItem];
    rewrite ?bool_decide_eq_false_2 by done;
    rewrite bool_decide_eq_true_2 by done; cbn -[Slice.updateItem].
  - unfold requestsSlice.updateRequest.
    rewrite (updateItem_absent (T := Request.t)) by done.
    by destruct s as [? ? ? ? ? ? ? [? ?] ? ? ? ? ?].
  - unfold feedbackSlice.updateFeedback.
    rewrite (updateItem_absent (T := Feedback.t)) by done.
    by destruct s as [? ? ? ? ? ? ? [? ?] ? ? ? ? ?].
Qed.

End Frames.

Lemma unrecognised_frame_witness :
  let P := test_platform None in
  let s := mount "tok" initialRoot in
  ws_onmessage "null" s = (inr tt, s) ∧
  ws_onmessage (frame_of "unknown_kind") s = (inr tt, s).
Proof.
  intros P s. split; apply unrecognised_frame_is_ignored.
  - left. reflexivity.
  - right. eexists _, _. split; [reflexivity|]. by split_and!.
Defined.

Lemma update_frame_for_absent_id_witness :
  let P := test_platform None in
  let s := mount "tok" initialRoot in
  ws_onmessage (frame_of "request_updated") s = (inr tt, s).
Proof.
  intros P s.
  eapply (update_frame_for_absent_id_is_dropped
            (frame_of "request_updated") _ s).
  left. split; [reflexivity|]. intros r Hr. vm_compute in Hr.
  by apply elem_of_nil in Hr.
Defined.

(** X15.  Teardown is idempotent: running the cleanup a second time
    changes nothing, in any state. *)
Theorem cleanup_is_idempotent (s : hook) :
  exec cleanup (exec cleanup s) = exec cleanup s.
Proof.
  assert (∀ t (l : list (nat * Z)),
            filter (λ p, p.1 ≠ t) (filter (λ p, p.1 ≠ t) l)
            = filter (λ p, p.1 ≠ t) l) as Hff.
  { intros t l. rewrite list_filter_filter. apply list_filter_iff.
    intros p. tauto. }
  exec_eq. unfold clearTimeout, ws_close, modify.
  destruct s as [ws rt rc hs ce ic icl st socks att tm nt sf].
  destruct rt as [[|t]|]; cbn;
    (destruct ws as [k|]; cbn;
       [destruct (socks !! k) as [w|] eqn:Hk; cbn; rewrite ?Hk; cbn;
          [case_bool_decide as Hopen; cbn;
             rewrite ?list_lookup_alter_eq, ?Hk; cbn;
             rewrite ?bool_decide_eq_false_2 by done|]|]);
    unfold set_timers, set_isCleaning, set_sockets; cbn; rewrite ?Hff;
    reflexivity.
Qed.

(** ** What teardown closes *)

Lemma cleanup_sockets (s : hook) :
  sockets (exec cleanup s) =
    match wsRef s with
    | Some k =>
        match sockets s !! k with
        | Some w =>
            if bool_decide (readyState w = OPEN)
            then alter (λ w, mkWebSocket (url w) CLOSING (close_fired w)) k
                   (sockets s)
            else sockets s
        | None => sockets s
        end
    | None => sockets s
    end.
Proof.
  exec_eq. unfold clearTimeout, ws_close, modify.
  destruct s as [ws rt rc hs ce ic icl st socks att tm nt sf]. cbn.
  destruct (truthy_number rt); cbn;
    (destruct ws as [k|]; [|done]);
    (destruct (socks !! k) as [w|]; [|done]);
    by case_bool_decide.
Qed.

(** X16.  Whatever the state, the cleanup calls [close] on one socket at
    most: the one [wsRef] holds, and only if it is [OPEN]; it is then
    [CLOSING], its close event still due.  Every other socket is left as
    it is whatever its state, an [OPEN] one included, and so is the held
    socket when it is [CONNECTING], [CLOSING] or [CLOSED]: a connection
    attempt still in flight is not closed by the cleanup. *)
Theorem cleanup_closes_only_the_held_socket (s : hook) :
  length (sockets (exec cleanup s)) = length (sockets s) ∧
  (∀ k w, wsRef s = Some k → sockets s !! k = Some w →
          sockets (exec cleanup s) !! k = Some (after_close_call w)) ∧
  (∀ i, wsRef s ≠ Some i →
        sockets (exec cleanup s) !! i = sockets s !! i) ∧
  (∀ i w, sockets s !! i = Some w → readyState w ≠ OPEN →
          sockets (exec cleanup s) !! i = Some w) ∧
  (∀ i w, sockets (exec cleanup s) !! i = Some w → readyState w = OPEN →
          wsRef s ≠ Some i ∧ sockets s !! i = Some w).
Proof.
  rewrite cleanup_sockets. unfold after_close_call.
  destruct (wsRef s) as [k|] eqn:Hws; cycle 1.
  { by split_and!. }
  destruct (sockets s !! k) as [wk|] eqn:Hk; cycle 1.
  { split_and!; try done.
    - intros k' w [= <-] Hk'. congruence.
    - intros i w Hi Hw. split; [|done]. intros [= ->]. congruence. }
  case_bool_decide as Hopen; cycle 1.
  { split_and!; try done.
    - intros k' w [= <-] Hk'. rewrite Hk in Hk'. injection Hk' as <-.
      by rewrite bool_decide_eq_false_2.
    - intros i w Hi Hw. split; [|done]. intros [= ->]. congruence. }
  split_and!.
  - apply length_alter.
  - intros k' w [= <-] Hk'. rewrite Hk in Hk'. injection Hk' as <-.
    rewrite list_lookup_alter, decide_True, Hk by done. cbn.
    by rewrite bool_decide_eq_true_2.
  - intros i Hi. rewrite list_lookup_alter, decide_False; [done|congruence].
  - intros i w Hi Hw. rewrite list_lookup_alter. case_decide as Hik; [|done].
    subst i. congruence.
  - intros i w Hi Hw. rewrite list_lookup_alter in Hi.
    case_decide as Hik.
    + subst i. rewrite Hk in Hi. cbn in Hi. injection Hi as <-. done.
    + split; [congruence|done].
Qed.

Section LiveRef.
Context `{Platform}.

Lemma live_ref_connect (token : string) (s : hook) :
  settled s → live_ref (exec (connect token) s).
Proof.
  intros Hs. exec_eq. unfold live_ref.
  assert (∀ i w, sockets s !! i = Some w → close_fired w = false → False)
    as Hno by (intros i w Hi Hf; specialize (Hs i w Hi); congruence).
  destruct s as [ws rt rc hs ce ic icl st socks att tm nt sf]; hcbn.
  destruct ic; hcbn; [intros i w Hi Hf; by destruct (Hno i w)|].
  destruct (_ <=? _)%nat; hcbn.
  { destruct hs; hcbn; intros i w Hi Hf; by destruct (Hno i w). }
  destruct (WebSocket_throws _); hcbn.
  - destruct (_ && _); hcbn; [intros i w Hi Hf; by destruct (Hno i w)|].
    destruct hs; hcbn; intros i w Hi Hf; by destruct (Hno i w).
  - intros i w Hi Hf. split_lookups; [by destruct (Hno i w)|done].
Qed.

Lemma live_ref_step (token : string) (ev : event) (s s' : hook) :
  hook_inv s → live_ref s → step token ev s = Some s' → live_ref s'.
Proof.
  intros Hinv Hlr Hstep. destruct ev as [k|k data|k|k|t| |]; cbn in Hstep.
  - apply fmap_Some in Hstep as (s1 & (w & Hk & _ & ->)%deliver_Some & ->).
    exec_eq. unfold live_ref in *. destruct s; hcbn.
    intros i wi Hi Hf. split_lookups; hcbn; eauto.
  - apply fmap_Some in Hstep as (s1 & Hd & ->).
    apply deliver_unchanged in Hd as ->.
    destruct (ws_onmessage_store data s) as [st' Hm].
    unfold exec. rewrite Hm. by destruct s.
  - apply fmap_Some in Hstep as (s1 & (w & Hk & _ & ->)%deliver_Some & ->).
    exec_eq. unfold live_ref in *. destruct s; hcbn.
    intros i wi Hi Hf. split_lookups; hcbn; eauto.
  - apply fmap_Some in Hstep as (s1 & (w & Hk & _ & ->)%deliver_Some & ->).
    exec_eq. unfold live_ref in *. destruct s; hcbn.
    destruct isCleaning0; hcbn;
      [|destruct (_ <? _)%nat; hcbn; [|destruct hasShownErrorRef0; hcbn]];
      intros i wi Hi Hf; split_lookups; hcbn; eauto; done.
  - case_bool_decide as Hin; [|done]. injection Hstep as <-.
    apply live_ref_connect.
    destruct (inv_timers s Hinv) as [Htm|(t0 & d & _ & _ & _ & Hs & _)].
    + rewrite Htm in Hin. by apply elem_of_nil in Hin.
    + by destruct s.
  - injection Hstep as <-. unfold live_ref. rewrite cleanup_sockets.
    assert (wsRef (exec cleanup s) = wsRef s) as ->.
    { exec_eq. unfold clearTimeout, ws_close, modify.
      destruct s as [ws rt rc hs ce ic icl st socks att tm nt sf]. cbn.
      destruct (truthy_number rt); cbn;
        (destruct ws as [k|]; [|done]);
        (destruct (socks !! k) as [w|]; [|done]);
        by case_bool_decide. }
    destruct (wsRef s) as [k|] eqn:Hws; [|by rewrite <- Hws].
    destruct (sockets s !! k) as [w|] eqn:Hk; [|by rewrite <- Hws].
    case_bool_decide as Hopen; [|by rewrite <- Hws].
    rewrite (alter_as_insert _ _ _ _ Hk). intros i wi Hi Hf.
    split_lookups; hcbn; [done|]. rewrite <- Hws. eauto.
  - injection Hstep as <-. exec_eq. by destruct s.
Qed.

Lemma live_ref_run (token : string) (evs : list event) (s s' : hook) :
  hook_inv s → live_ref s → run token evs s = Some s' → live_ref s'.
Proof.
  revert s. induction evs as [|ev evs IH]; intros s Hinv Hlr Hrun;
    cbn in Hrun.
  - by injection Hrun as <-.
  - destruct (step token ev s) as [s1|] eqn:Hstep; [|done]. cbn in Hrun.
    eapply IH; [| |done].
    + by eapply inv_step.
    + by eapply live_ref_step.
Qed.

Lemma live_ref_mount (token : string) (st : RootState) :
  live_ref (mount token st).
Proof.
  rewrite mount_eq. destruct (String.eqb token "").
  - by intros i w Hi.
  - apply live_ref_connect. by intros i w Hi.
Qed.

End LiveRef.

(** ** The notice *)

Section Notice.
Context `{Platform}.

Lemma quiet_step (token : string) (ev : event) (s s' : hook) :
  torn_down s → step token ev s = Some s' →
  surfaced s' = surfaced s ∧
  (connectionError s' = connectionError s ∨ connectionError s' = None).
Proof.
  intros [Hcl Htm] Hstep. destruct ev as [k|k data|k|k|t| |]; cbn in Hstep.
  - apply fmap_Some in Hstep as (s1 & (w & Hk & _ & ->)%deliver_Some & ->).
    exec_eq. destruct s; hcbn. auto.
  - apply fmap_Some in Hstep as (s1 & Hd & ->).
    apply deliver_unchanged in Hd as ->.
    destruct (ws_onmessage_store data s) as [st' Hm].
    unfold exec. rewrite Hm. destruct s; hcbn. auto.
  - apply fmap_Some in Hstep as (s1 & (w & Hk & _ & ->)%deliver_Some & ->).
    exec_eq. destruct s; hcbn. auto.
  - apply fmap_Some in Hstep as (s1 & (w & Hk & _ & ->)%deliver_Some & ->).
    exec_eq. destruct s; hcbn; subst. hcbn. auto.
  - rewrite Htm in Hstep. cbn in Hstep.
    rewrite bool_decide_eq_false_2 in Hstep by apply not_elem_of_nil. done.
  - injection Hstep as <-. exec_eq. unfold clearTimeout, ws_close, modify.
    destruct s as [ws rt rc hs ce ic icl st socks att tm nt sf]. cbn.
    destruct (truthy_number rt); cbn;
      (destruct ws as [k|]; [|auto]);
      (destruct (socks !! k) as [w|]; [|auto]);
      case_bool_decide; auto.
  - injection Hstep as <-. exec_eq. destruct s; hcbn. auto.
Qed.

Lemma quiet_run (token : string) (evs : list event) (s s' : hook) :
  torn_down s → run token evs s = Some s' →
  surfaced s' = surfaced s ∧
  (connectionError s' = connectionError s ∨ connectionError s' = None).
Proof.
  revert s. induction evs as [|ev evs IH]; intros s Htd Hrun; cbn in Hrun.
  - injection Hrun as <-. auto.
  - destruct (step token ev s) as [s1|] eqn:Hstep; [|done]. cbn in Hrun.
    destruct (quiet_step token ev s s1 Htd Hstep) as [Hs1 He1].
    destruct (torn_down_step token ev s s1 Htd Hstep) as (Htd1 & _ & _).
    destruct (IH s1 Htd1 Hrun) as [Hs' He']. split; [congruence|].
    destruct He' as [He'|He']; [|by right].
    destruct He1 as [He1|He1]; [left|right]; congruence.
Qed.

(** X17.  Once the cleanup has run in a state the hook can reach, no
    notice is surfaced any more, whatever events follow: the notices
    surfaced stay as they were, and the notice on display can only be
    cleared, never set. *)
Theorem no_notice_after_teardown (token : string) (st : RootState)
    (evs1 evs2 : list event) (s1 s2 : hook) :
  run token evs1 (mount token st) = Some s1 →
  run token evs2 (exec cleanup s1) = Some s2 →
  surfaced s2 = surfaced s1 ∧
  (connectionError s2 = connectionError s1 ∨ connectionError s2 = None).
Proof.
  intros Hrun1 Hrun2.
  assert (hook_inv s1) as Hinv by (eapply inv_run; [apply inv_mount|done]).
  destruct (cleanup_torn_down s1 Hinv) as (Htd & _ & _).
  destruct (quiet_run token evs2 _ s2 Htd Hrun2) as [Hs He].
  assert (surfaced (exec cleanup s1) = surfaced s1 ∧
          connectionError (exec cleanup s1) = connectionError s1) as [Hs0 He0].
  { exec_eq. unfold clearTimeout, ws_close, modify.
    destruct s1 as [ws rt rc hs ce ic icl st1 socks att tm nt sf]. cbn.
    destruct (truthy_number rt); cbn;
      (destruct ws as [k|]; [|done]);
      (destruct (socks !! k) as [w|]; [|done]);
      by case_bool_decide. }
  split; [congruence|]. destruct He as [He|He]; [left|right]; congruence.
Qed.

Lemma notice_inv_connect (token : string) (s : hook) :
  notice_inv s → isCleaning s = false →
  notice_inv (exec (connect token) s).
Proof.
  intros (Hn & Hf & Hc) Hcl. unfold notice_inv. exec_eq.
  destruct s as [ws rt rc hs ce ic icl st socks att tm nt sf]; hcbn; subst.
  destruct ic; hcbn; [done|].
  destruct (Nat.leb_spec MAX_RETRY_ATTEMPTS rc) as [Hge|Hlt]; hcbn.
  { destruct hs; hcbn; [done|]. split_and!; [by right|done|done]. }
  destruct (WebSocket_throws _); hcbn; [|done].
  destruct (Nat.ltb_spec (S rc) MAX_RETRY_ATTEMPTS) as [Hlt'|Hge']; hcbn.
  - split_and!; [done| |done]. intros Hhs. specialize (Hf Hhs). lia.
  - destruct hs; hcbn.
    + split_and!; [done| |done]. intros _. lia.
    + split_and!; [by right|done|done].
Qed.

Lemma notice_inv_step (token : string) (ev : event) (s s' : hook) :
  hook_inv s → notice_inv s → step token ev s = Some s' → notice_inv s'.
Proof.
  intros Hinv (Hn & Hf & Hc) Hstep.
  destruct ev as [k|k data|k|k|t| |]; cbn in Hstep.
  - apply fmap_Some in Hstep as (s1 & (w & Hk & _ & ->)%deliver_Some & ->).
    unfold notice_inv. exec_eq. destruct s; hcbn.
    split_and!; [by left|done|done].
  - apply fmap_Some in Hstep as (s1 & Hd & ->).
    apply deliver_unchanged in Hd as ->.
    destruct (ws_onmessage_store data s) as [st' Hm].
    unfold exec. rewrite Hm. by destruct s.
  - apply fmap_Some in Hstep as (s1 & (w & Hk & _ & ->)%deliver_Some & ->).
    unfold notice_inv. exec_eq. destruct s; hcbn.
    split_and!; [done| |done]. intros Hhs. specialize (Hf Hhs). lia.
  - apply fmap_Some in Hstep as (s1 & (w & Hk & _ & ->)%deliver_Some & ->).
    unfold notice_inv. exec_eq.
    destruct s as [ws rt rc hs ce ic icl st socks att tm nt sf]; hcbn.
    destruct icl; hcbn; [done|].
    destruct (Nat.ltb_spec (S rc) MAX_RETRY_ATTEMPTS) as [Hlt'|Hge']; hcbn.
    + split_and!; [done| |done]. intros Hhs. specialize (Hf Hhs). lia.
    + destruct hs; hcbn.
      * split_and!; [done| |done]. intros _. lia.
      * split_and!; [by right|done|done].
  - case_bool_decide as Hin; [|done]. injection Hstep as <-.
    assert (isCleaning s = false) as Hcl.
    { destruct (isCleaning s) eqn:E; [|done]. rewrite (Hc eq_refl) in Hin.
      by apply elem_of_nil in Hin. }
    apply notice_inv_connect; [|by destruct s].
    destruct s; hcbn; subst. split_and!; [done..|]. by intros ?.
  - injection Hstep as <-.
    destruct (cleanup_torn_down s Hinv) as ([Hcl Htm] & _ & _).
    unfold notice_inv. rewrite Htm.
    assert (connectionError (exec cleanup s) = connectionError s ∧
            hasShownErrorRef (exec cleanup s) = hasShownErrorRef s ∧
            retryCountRef (exec cleanup s) = retryCountRef s)
      as (-> & -> & ->); [|done].
    exec_eq. unfold clearTimeout, ws_close, modify.
    destruct s as [ws rt rc hs ce ic icl st socks att tm nt sf]. cbn.
    destruct (truthy_number rt); cbn;
      (destruct ws as [k|]; [|done]);
      (destruct (socks !! k) as [w|]; [|done]);
      by case_bool_decide.
  - injection Hstep as <-. unfold notice_inv. exec_eq. destruct s; hcbn.
    split_and!; [by left|done|done].
Qed.

Lemma notice_inv_run (token : string) (evs : list event) (s s' : hook) :
  hook_inv s → notice_inv s → run token evs s = Some s' → notice_inv s'.
Proof.
  revert s. induction evs as [|ev evs IH]; intros s Hinv Hn Hrun;
    cbn in Hrun.
  - by injection Hrun as <-.
  - destruct (step token ev s) as [s1|] eqn:Hstep; [|done]. cbn in Hrun.
    eapply IH; [| |done].
    + by eapply inv_step.
    + by eapply notice_inv_step.
Qed.

Lemma notice_inv_mount (token : string) (st : RootState) :
  notice_inv (mount token st).
Proof.
  assert (notice_inv (initial_hook st)) as Hinit.
  { split_and!; [by left|done|done]. }
  rewrite mount_eq. destruct (String.eqb token ""); [done|].
  by apply notice_inv_connect.
Qed.

(** X18.  In every state the hook can reach, the error modal is open only
    with the one connection-failure message, with the ErrorFlag set and
    with the counter at or above [MAX_RETRY_ATTEMPTS]: it is never shown
    while a retry is still due. *)
Theorem modal_only_when_retries_exhausted (token : string) (st : RootState)
    (evs : list event) (s : hook) :
  run token evs (mount token st) = Some s →
  ErrorModal_isOpen s = true →
  connectionError s = Some CONNECTION_ERROR_MESSAGE ∧
  hasShownErrorRef s = true ∧
  (MAX_RETRY_ATTEMPTS ≤ retryCountRef s)%nat ∧
  timers s = [].
Proof.
  intros Hrun Hopen.
  assert (hook_inv s) as Hinv by (eapply inv_run; [apply inv_mount|done]).
  assert (notice_inv s) as (Hn & Hf & _)
    by (eapply notice_inv_run; [apply inv_mount|apply notice_inv_mount|done]).
  unfold ErrorModal_isOpen in Hopen.
  destruct Hn as [Hn|[Hn Hhs]]; [by rewrite Hn in Hopen|].
  specialize (Hf Hhs). split_and!; [done..|].
  destruct (inv_timers s Hinv) as [?|(t & d & _ & _ & _ & _ & Hlt)];
    [done|lia].
Qed.

End Notice.

Lemma no_notice_after_teardown_witness :
  let P := test_platform None in
  let s1 := default (initial_hook initialRoot)
              (run "tok" [EvError 0]%nat (mount "tok" initialRoot)) in
  let s2 := default (initial_hook initialRoot)
              (run "tok" [EvClose 0]%nat (exec cleanup s1)) in
  retryCountRef s2 = 1%nat ∧
  surfaced s2 = surfaced s1 ∧
  (connectionError s2 = connectionError s1 ∨ connectionError s2 = None).
Proof.
  intros P s1 s2. split; [vm_compute; reflexivity|].
  apply (no_notice_after_teardown "tok" initialRoot
           [EvError 0]%nat [EvClose 0]%nat s1 s2); vm_compute; reflexivity.
Defined.

Lemma modal_only_when_exhausted_witness :
  let P := test_platform None in
  let s := default (initial_hook initialRoot)
             (run "tok" [EvError 0; EvClose 0; EvTimeout 1;
                         EvError 1; EvClose 1]%nat
                (mount "tok" initialRoot)) in
  connectionError s = Some CONNECTION_ERROR_MESSAGE ∧
  hasShownErrorRef s = true ∧
  (MAX_RETRY_ATTEMPTS ≤ retryCountRef s)%nat ∧
  timers s = [].
Proof.
  intros P s.
  apply (modal_only_when_retries_exhausted "tok" initialRoot
           [EvError 0; EvClose 0; EvTimeout 1; EvError 1; EvClose 1]%nat s);
    vm_compute; reflexivity.
Defined.

(** ** Notices and episodes *)

Section Episodes.
Context `{Platform}.

Lemma episode_connect (token : string) (n : nat) (s : hook) :
  (length (surfaced s) + (if hasShownErrorRef s then 0 else 1) ≤ S n)%nat →
  (length (surfaced (exec (connect token) s))
   + (if hasShownErrorRef (exec (connect token) s) then 0 else 1) ≤ S n)%nat.
Proof.
  intros Hle. exec_eq.
  destruct s as [ws rt rc hs ce ic icl st socks att tm nt sf]; hcbn.
  destruct ic; hcbn; [done|].
  destruct (_ <=? _)%nat; hcbn; [destruct hs; hcbn; lia|].
  destruct (WebSocket_throws _); hcbn; [|done].
  destruct (_ && _); hcbn; [done|]. destruct hs; hcbn; lia.
Qed.

Lemma episode_step (token : string) (ev : event) (n : nat) (s s' : hook) :
  (length (surfaced s) + (if hasShownErrorRef s then 0 else 1) ≤ S n)%nat →
  step token ev s = Some s' →
  (length (surfaced s') + (if hasShownErrorRef s' then 0 else 1)
     ≤ S (n + (if is_open ev then 1 else 0)))%nat.
Proof.
  intros Hle Hstep. destruct ev as [k|k data|k|k|t| |]; cbn in Hstep.
  - apply fmap_Some in Hstep as (s1 & (w & Hk & _ & ->)%deliver_Some & ->).
    exec_eq. destruct s; hcbn. destruct hasShownErrorRef0; lia.
  - apply fmap_Some in Hstep as (s1 & Hd & ->).
    apply deliver_unchanged in Hd as ->.
    destruct (ws_onmessage_store data s) as [st' Hm].
    unfold exec. rewrite Hm. destruct s; hcbn. lia.
  - apply fmap_Some in Hstep as (s1 & (w & Hk & _ & ->)%deliver_Some & ->).
    exec_eq. destruct s; hcbn. lia.
  - apply fmap_Some in Hstep as (s1 & (w & Hk & _ & ->)%deliver_Some & ->).
    exec_eq.
    destruct s as [ws rt rc hs ce ic icl st socks att tm nt sf]; hcbn.
    destruct icl; hcbn; [lia|].
    destruct (_ <? _)%nat; hcbn; [lia|]. destruct hs; hcbn; lia.
  - case_bool_decide as Hin; [|done]. injection Hstep as <-.
    rewrite Nat.add_0_r. apply episode_connect. by destruct s.
  - injection Hstep as <-.
    assert (surfaced (exec cleanup s) = surfaced s ∧
            hasShownErrorRef (exec cleanup s) = hasShownErrorRef s)
      as [-> ->]; [|cbn; lia].
    exec_eq. unfold clearTimeout, ws_close, modify.
    destruct s as [ws rt rc hs ce ic icl st socks att tm nt sf]. cbn.
    destruct (truthy_number rt); cbn;
      (destruct ws as [k|]; [|done]);
      (destruct (socks !! k) as [w|]; [|done]);
      by case_bool_decide.
  - injection Hstep as <-. exec_eq. destruct s; hcbn. lia.
Qed.

Lemma episode_run (token : string) (evs : list event) (n : nat)
    (s s' : hook) :
  (length (surfaced s) + (if hasShownErrorRef s then 0 else 1) ≤ S n)%nat →
  run token evs s = Some s' →
  (length (surfaced s') + (if hasShownErrorRef s' then 0 else 1)
     ≤ S (n + opens evs))%nat.
Proof.
  revert n s. induction evs as [|ev evs IH]; intros n s Hle Hrun;
    cbn in Hrun.
  - injection Hrun as <-. unfold opens. cbn. lia.
  - destruct (step token ev s) as [s1|] eqn:Hstep; [|done]. cbn in Hrun.
    pose proof (episode_step token ev n s s1 Hle Hstep) as Hle1.
    pose proof (IH _ s1 Hle1 Hrun) as Hle'.
    unfold opens in *. rewrite filter_cons.
    destruct (is_open ev); case_decide; try done; cbn [length]; lia.
Qed.

(** X19.  At most one notice is surfaced per failure episode: over any run
    from the mount, the notices surfaced number at most one more than the
    sockets that opened. *)
Theorem one_notice_per_episode (token : string) (st : RootState)
    (evs : list event) (s : hook) :
  run token evs (mount token st) = Some s →
  (length (surfaced s) ≤ S (opens evs))%nat.
Proof.
  intros Hrun.
  assert (length (surfaced (mount token st))
          + (if hasShownErrorRef (mount token st) then 0 else 1) ≤ 1)%nat
    as Hm.
  { rewrite mount_eq. destruct (String.eqb token ""); [cbn; lia|].
    apply episode_connect. cbn. lia. }
  pose proof (episode_run token evs 0 _ s Hm Hrun) as Hle.
  destruct (hasShownErrorRef s); lia.
Qed.

(** ** Reconnection when sockets open *)

Lemma step_open (token : string) (k : nat) (w : WebSocket) (s : hook) :
  sockets s !! k = Some w → readyState w = CONNECTING →
  step token (EvOpen k) s =
    Some (exec ws_onopen
            (set_sockets
               (<[k := mkWebSocket (url w) OPEN (close_fired w)]> (sockets s))
               s)).
Proof.
  intros Hk Hw. cbn. unfold deliver. rewrite Hk. cbn.
  by rewrite bool_decide_eq_true_2.
Qed.

Lemma step_close (token : string) (k : nat) (w : WebSocket) (s : hook) :
  sockets s !! k = Some w → close_fired w = false →
  step token (EvClose k) s =
    Some (exec ws_onclose
            (set_sockets (<[k := mkWebSocket (url w) CLOSED true]> (sockets s))
               s)).
Proof. intros Hk Hw. cbn. unfold deliver. rewrite Hk. cbn. by rewrite Hw. Qed.

Lemma open_close_round (token : string) (n : nat) (s : hook) :
  WebSocket_throws (WS_URL +:+ "/ws?token=" +:+ token) = None →
  connecting_nth n s →
  ∃ s', run token [EvOpen n; EvClose n; EvTimeout (S n)] s = Some s' ∧
        connecting_nth (S n) s'.
Proof.
  intros Hctor (Ha & Hsf & Hhs & Hcl & Htm & Hnt & Hlen & w & Hk & Hw & Hf).
  cbn [run]. rewrite (step_open token n w s Hk Hw). cbn [mbind option_bind].
  rewrite (step_close token n (mkWebSocket (url w) OPEN (close_fired w))).
  2: { exec_eq. destruct s; hcbn. apply list_lookup_insert_eq.
       by eapply lookup_lt_Some. }
  2: done.
  cbn [mbind option_bind]. cbn [step].
  destruct s as [ws rt rc hs ce ic icl st socks att tm nt sf]; cbn in *; subst.
  exec_eq. cbn.
  rewrite bool_decide_eq_true_2 by apply list_elem_of_here.
  rewrite decide_False by (by intros ?). cbn.
  rewrite Hctor. cbn.
  eexists. split; [reflexivity|]. unfold connecting_nth. cbn.
  rewrite length_app, !length_insert. cbn [length].
  split_and!; try done; try lia.
  exists (mkWebSocket (WS_URL +:+ "/ws?token=" +:+ token) CONNECTING false).
  split_and!; [|done..].
  apply list_lookup_middle. rewrite !length_insert. lia.
Qed.

(** X20.  The retry cap does not bound reconnection when sockets open
    before they close.  With a socket constructor that accepts the URL and
    a non-empty token, after [n] rounds of open, close and retry timeout
    the hook has made [n + 1] attempts, has surfaced nothing, and is
    connecting again. *)
Theorem reconnects_without_bound (token : string) (st : RootState) (n : nat) :
  token ≠ "" →
  WebSocket_throws (WS_URL +:+ "/ws?token=" +:+ token) = None →
  ∃ s, run token (open_close_rounds n) (mount token st) = Some s ∧
       attempts s = S n ∧ surfaced s = [] ∧ timers s = [] ∧
       ∃ w, sockets s !! n = Some w ∧ readyState w = CONNECTING.
Proof.
  intros Htok Hctor.
  assert (∃ s, run token (open_close_rounds n) (mount token st) = Some s ∧
               connecting_nth n s) as (s & Hrun & Hs).
  { induction n as [|n (s & Hrun & Hs)].
    - eexists. split; [reflexivity|]. rewrite mount_eq.
      apply String.eqb_neq in Htok. rewrite Htok.
      exec_eq. unfold connecting_nth. hcbn. rewrite Hctor. hcbn.
      split_and!; try done. by eexists.
    - destruct (open_close_round token n s Hctor Hs) as (s' & Hrun' & Hs').
      exists s'. split; [|done].
      unfold open_close_rounds in *. rewrite seq_S, bind_app, run_app, Hrun.
      cbn [mbind option_bind]. cbn [plus]. rewrite bind_singleton. done. }
  exists s. destruct Hs as (Ha & Hsf & _ & _ & Htm & _ & _ & w & Hk & Hw & _).
  split_and!; try done. eauto.
Qed.

(** ** No credential *)

Lemma idle_step (token : string) (ev : event) (s s' : hook) :
  idle s → step token ev s = Some s' → idle s'.
Proof.
  intros (Hs & Ht & Ha & Hsf) Hstep. unfold idle.
  destruct ev as [k|k data|k|k|t| |]; cbn in Hstep.
  1-4: unfold deliver in Hstep; rewrite Hs in Hstep; done.
  - rewrite Ht in Hstep. cbn in Hstep.
    rewrite bool_decide_eq_false_2 in Hstep by apply not_elem_of_nil. done.
  - injection Hstep as <-. exec_eq. unfold clearTimeout, ws_close, modify.
    destruct s as [ws rt rc hs ce ic icl st socks att tm nt sf]; hcbn; subst.
    destruct (truthy_number rt); hcbn; by destruct ws.
  - injection Hstep as <-. exec_eq. by destruct s.
Qed.

(** X21.  Without a credential ([null] or the empty string) the effect
    does nothing, and nothing can happen afterwards: over any sequence of
    events no connection attempt is made, no socket exists, no timer is
    pending and no notice is surfaced. *)
Theorem no_credential_no_connection (cred : option string) (token : string)
    (st : RootState) (evs : list event) (s : hook) :
  truthy_string cred = false →
  run token evs (exec (useEffect_token cred) (initial_hook st)) = Some s →
  attempts s = 0%nat ∧ sockets s = [] ∧ timers s = [] ∧ surfaced s = [].
Proof.
  intros Hcred Hrun.
  assert (idle (exec (useEffect_token cred) (initial_hook st))) as Hidle.
  { unfold useEffect_token, exec, skip. rewrite Hcred. by cbn. }
  assert (idle s) as (? & ? & ? & ?); [|done].
  revert Hidle Hrun. generalize (exec (useEffect_token cred) (initial_hook st)).
  induction evs as [|ev evs IH]; intros s0 Hidle Hrun; cbn in Hrun.
  - by injection Hrun as <-.
  - destruct (step token ev s0) as [s1|] eqn:Hstep; [|done]. cbn in Hrun.
    eapply IH; [|done]. by eapply idle_step.
Qed.

End Episodes.

Lemma one_notice_per_episode_witness :
  let P := test_platform None in
  let evs := [EvClose 0; EvTimeout 1; EvClose 1; EvTimeout 2; EvClose 2]%nat in
  let s := default (initial_hook initialRoot)
             (run "tok" evs (mount "tok" initialRoot)) in
  opens evs = 0%nat ∧ (length (surfaced s) ≤ 1)%nat.
Proof.
  intros P evs s. split; [reflexivity|].
  apply (one_notice_per_episode "tok" initialRoot evs s).
  vm_compute; reflexivity.
Defined.

Lemma reconnects_without_bound_witness :
  let P := test_platform None in
  ∃ s, run "tok" (open_close_rounds 5) (mount "tok" initialRoot) = Some s ∧
       attempts s = 6%nat ∧ surfaced s = [] ∧ timers s = [] ∧
       ∃ w, sockets s !! 5%nat = Some w ∧ readyState w = CONNECTING.
Proof.
  intros P. apply (reconnects_without_bound "tok" initialRoot 5);
    [done|reflexivity].
Defined.

Lemma no_credential_witness :
  let P := test_platform None in
  let s := default (initial_hook initialRoot)
             (run "" [EvCleanup; EvClearError]
                (exec (useEffect_token (Some "")) (initial_hook initialRoot))) in
  attempts s = 0%nat ∧ sockets s = [] ∧ timers s = [] ∧ surfaced s = [].
Proof.
  intros P s.
  apply (no_credential_no_connection (Some "") "" initialRoot
           [EvCleanup; EvClearError] s); vm_compute; reflexivity.
Defined.

(** ** A dismissed notice, and the delay of retries *)

Section Dismissed.
Context `{Platform}.

Lemma dismissed_step (token : string) (ev : event) (s s' : hook) :
  hasShownErrorRef s = true ∧ connectionError s = None →
  is_open ev = false → step token ev s = Some s' →
  hasShownErrorRef s' = true ∧ connectionError s' = None.
Proof.
  intros [Hhs Hce] Hno Hstep. destruct ev as [k|k data|k|k|t| |];
    cbn in Hstep; [done|..].
  - apply fmap_Some in Hstep as (s1 & Hd & ->).
    apply deliver_unchanged in Hd as ->.
    destruct (ws_onmessage_store data s) as [st' Hm].
    unfold exec. rewrite Hm. by destruct s.
  - apply fmap_Some in Hstep as (s1 & (w & Hk & _ & ->)%deliver_Some & ->).
    exec_eq. by destruct s.
  - apply fmap_Some in Hstep as (s1 & (w & Hk & _ & ->)%deliver_Some & ->).
    exec_eq.
    destruct s as [ws rt rc hs ce ic icl st socks att tm nt sf]; hcbn; subst.
    destruct icl; hcbn; [done|]. by destruct (_ <? _)%nat.
  - case_bool_decide as Hin; [|done]. injection Hstep as <-. exec_eq.
    destruct s as [ws rt rc hs ce ic icl st socks att tm nt sf]; hcbn; subst.
    destruct ic; hcbn; [done|].
    destruct (_ <=? _)%nat; hcbn; [done|].
    destruct (WebSocket_throws _); hcbn; [|done].
    by destruct (_ && _).
  - injection Hstep as <-. exec_eq. unfold clearTimeout, ws_close, modify.
    destruct s as [ws rt rc hs ce ic icl st socks att tm nt sf]; hcbn; subst.
    destruct (truthy_number rt); hcbn;
      (destruct ws as [k|]; [|done]);
      (destruct (socks !! k) as [w|]; [|done]);
      by case_bool_decide.
  - injection Hstep as <-. exec_eq. by destruct s.
Qed.

(** A set ErrorFlag survives every step that is not the opening of a
    socket, in every state. *)
Lemma flag_survives_step (token : string) (ev : event) (s s' : hook) :
  hasShownErrorRef s = true → is_open ev = false →
  step token ev s = Some s' → hasShownErrorRef s' = true.
Proof.
  intros Hhs Hno Hstep. destruct ev as [k|k data|k|k|t| |];
    cbn in Hstep; [done|..].
  - apply fmap_Some in Hstep as (s1 & Hd & ->).
    apply deliver_unchanged in Hd as ->.
    destruct (ws_onmessage_store data s) as [st' Hm].
    unfold exec. rewrite Hm. by destruct s.
  - apply fmap_Some in Hstep as (s1 & (w & Hk & _ & ->)%deliver_Some & ->).
    exec_eq. by destruct s.
  - apply fmap_Some in Hstep as (s1 & (w & Hk & _ & ->)%deliver_Some & ->).
    exec_eq.
    destruct s as [ws rt rc hs ce ic icl st socks att tm nt sf]; hcbn; subst.
    destruct icl; hcbn; [done|]. by destruct (_ <? _)%nat.
  - case_bool_decide as Hin; [|done]. injection Hstep as <-. exec_eq.
    destruct s as [ws rt rc hs ce ic icl st socks att tm nt sf]; hcbn; subst.
    destruct ic; hcbn; [done|].
    destruct (_ <=? _)%nat; hcbn; [done|].
    destruct (WebSocket_throws _); hcbn; [|done].
    by destruct (_ && _).
  - injection Hstep as <-. exec_eq. unfold clearTimeout, ws_close, modify.
    destruct s as [ws rt rc hs ce ic icl st socks att tm nt sf]; hcbn; subst.
    destruct (truthy_number rt); hcbn;
      (destruct ws as [k|]; [|done]);
      (destruct (socks !! k) as [w|]; [|done]);
      by case_bool_decide.
  - injection Hstep as <-. exec_eq. by destruct s.
Qed.

(** C7, as amended.  For every state, invoking the dismiss operation
    clears the surfaced error notice, raises nothing, and leaves the
    ErrorFlag, the RetryCounter and the connection (socket handle, sockets
    and pending timers) unchanged.  The ErrorFlag is cleared only by a
    successful open: a step that takes it from set to clear is the opening
    of a socket, and every opening of a socket clears it. *)
Theorem dismiss_clears_notice_not_flag :
  (∀ s : hook,
     clearError s = (inr tt, set_connectionError None s) ∧
     connectionError (exec clearError s) = None ∧
     hasShownErrorRef (exec clearError s) = hasShownErrorRef s ∧
     retryCountRef (exec clearError s) = retryCountRef s ∧
     wsRef (exec clearError s) = wsRef s ∧
     sockets (exec clearError s) = sockets s ∧
     timers (exec clearError s) = timers s) ∧
  (∀ (token : string) (ev : event) (s s' : hook),
     step token ev s = Some s' →
     hasShownErrorRef s = true → hasShownErrorRef s' = false →
     is_open ev = true) ∧
  (∀ (token : string) (k : nat) (s s' : hook),
     step token (EvOpen k) s = Some s' → hasShownErrorRef s' = false).
Proof.
  split; [exact clearError_clears_notice_only|]. split.
  - intros token ev s s' Hstep Hs Hs'.
    destruct (is_open ev) eqn:Hev; [done|].
    pose proof (flag_survives_step token ev s s' Hs Hev Hstep) as Hkeep.
    congruence.
  - intros token k s s' Hstep. cbn in Hstep.
    apply fmap_Some in Hstep as (s1 & _ & ->).
    unfold exec. by rewrite ws_onopen_eq.
Qed.

(** X22.  A dismissed notice does not come back: once the modal is open
    and the consumer dismisses it, it stays closed over every sequence of
    events in which no socket opens (the ErrorFlag stays set, so the
    notice is not surfaced a second time). *)
Theorem dismissed_notice_stays_closed (token : string) (st : RootState)
    (evs1 evs2 : list event) (s1 s2 : hook) :
  run token evs1 (mount token st) = Some s1 →
  ErrorModal_isOpen s1 = true →
  forallb (λ ev, negb (is_open ev)) evs2 = true →
  run token evs2 (exec clearError s1) = Some s2 →
  ErrorModal_isOpen s2 = false ∧ surfaced s2 = surfaced s1.
Proof.
  intros Hrun1 Hopen Hno Hrun2.
  assert (hook_inv s1) as Hinv by (eapply inv_run; [apply inv_mount|done]).
  assert (notice_inv s1) as (Hn & _ & _)
    by (eapply notice_inv_run; [apply inv_mount|apply notice_inv_mount|done]).
  assert (hasShownErrorRef s1 = true) as Hhs.
  { unfold ErrorModal_isOpen in Hopen.
    destruct Hn as [Hn|[_ ?]]; [by rewrite Hn in Hopen|done]. }
  assert (hasShownErrorRef (exec clearError s1) = true ∧
          connectionError (exec clearError s1) = None) as Hd
    by (exec_eq; by destruct s1).
  assert (surfaced (exec clearError s1) = surfaced s1) as <-
    by (exec_eq; by destruct s1).
  revert Hd Hno Hrun2. generalize (exec clearError s1). clear.
  induction evs2 as [|ev evs IH]; intros s Hd Hno Hrun; cbn in Hrun, Hno.
  - injection Hrun as <-. unfold ErrorModal_isOpen.
    destruct Hd as [_ ->]. done.
  - apply andb_true_iff in Hno as [Hev Hno]. apply negb_true_iff in Hev.
    destruct (step token ev s) as [s'|] eqn:Hstep; [|done]. cbn in Hrun.
    pose proof (dismissed_step token ev s s' Hd Hev Hstep) as Hd'.
    destruct (IH s' Hd' Hno Hrun) as [Ho Hs]. split; [done|].
    rewrite Hs. clear IH Hrun Ho Hs.
    destruct Hd as [Hhs Hce]. destruct ev as [k|k data|k|k|t| |];
      cbn in Hstep; [done|..].
    + apply fmap_Some in Hstep as (s1 & Hdl & ->).
      apply deliver_unchanged in Hdl as ->.
      destruct (ws_onmessage_store data s) as [st' Hm].
      unfold exec. rewrite Hm. by destruct s.
    + apply fmap_Some in Hstep as (s1 & (w & Hk & _ & ->)%deliver_Some & ->).
      exec_eq. by destruct s.
    + apply fmap_Some in Hstep as (s1 & (w & Hk & _ & ->)%deliver_Some & ->).
      exec_eq.
      destruct s as [ws rt rc hs ce ic icl st socks att tm nt sf]; hcbn;
        subst.
      destruct icl; hcbn; [done|]. by destruct (_ <? _)%nat.
    + case_bool_decide as Hin; [|done]. injection Hstep as <-. exec_eq.
      destruct s as [ws rt rc hs ce ic icl st socks att tm nt sf]; hcbn;
        subst.
      destruct ic; hcbn; [done|].
      destruct (_ <=? _)%nat; hcbn; [done|].
      destruct (WebSocket_throws _); hcbn; [|done].
      by destruct (_ && _).
    + injection Hstep as <-. exec_eq. unfold clearTimeout, ws_close, modify.
      destruct s as [ws rt rc hs ce ic icl st socks att tm nt sf]; hcbn;
        subst.
      destruct (truthy_number rt); hcbn;
        (destruct ws as [k|]; [|done]);
        (destruct (socks !! k) as [w|]; [|done]);
        by case_bool_decide.
    + injection Hstep as <-. exec_eq. by destruct s.
Qed.

Lemma Forall_delay_filter (t : nat) (l : list (nat * Z)) :
  Forall (λ p, p.2 = RETRY_DELAY) l →
  Forall (λ p, p.2 = RETRY_DELAY) (filter (λ p, p.1 ≠ t) l).
Proof.
  rewrite !Forall_forall. intros Hall p [_ Hp]%list_elem_of_filter. eauto.
Qed.

Lemma fixed_delay_connect (token : string) (s : hook) :
  Forall (λ p, p.2 = RETRY_DELAY) (timers s) →
  Forall (λ p, p.2 = RETRY_DELAY) (timers (exec (connect token) s)).
Proof.
  intros Hall. exec_eq.
  destruct s as [ws rt rc hs ce ic icl st socks att tm nt sf]; hcbn.
  destruct ic; hcbn; [done|].
  destruct (_ <=? _)%nat; hcbn; [by destruct hs|].
  destruct (WebSocket_throws _); hcbn; [|done].
  destruct (_ && _); hcbn; [by apply Forall_cons|by destruct hs].
Qed.

Lemma fixed_delay_step (token : string) (ev : event) (s s' : hook) :
  Forall (λ p, p.2 = RETRY_DELAY) (timers s) →
  step token ev s = Some s' →
  Forall (λ p, p.2 = RETRY_DELAY) (timers s').
Proof.
  intros Hall Hstep. destruct ev as [k|k data|k|k|t| |]; cbn in Hstep.
  - apply fmap_Some in Hstep as (s1 & (w & Hk & _ & ->)%deliver_Some & ->).
    exec_eq. by destruct s.
  - apply fmap_Some in Hstep as (s1 & Hd & ->).
    apply deliver_unchanged in Hd as ->.
    destruct (ws_onmessage_store data s) as [st' Hm].
    unfold exec. rewrite Hm. by destruct s.
  - apply fmap_Some in Hstep as (s1 & (w & Hk & _ & ->)%deliver_Some & ->).
    exec_eq. by destruct s.
  - apply fmap_Some in Hstep as (s1 & (w & Hk & _ & ->)%deliver_Some & ->).
    exec_eq.
    destruct s as [ws rt rc hs ce ic icl st socks att tm nt sf]; hcbn.
    destruct icl; hcbn; [done|].
    destruct (_ <? _)%nat; hcbn; [by apply Forall_cons|by destruct hs].
  - case_bool_decide as Hin; [|done]. injection Hstep as <-.
    apply fixed_delay_connect. destruct s; hcbn.
    by apply Forall_delay_filter.
  - injection Hstep as <-. exec_eq. unfold clearTimeout, ws_close, modify.
    destruct s as [ws rt rc hs ce ic icl st socks att tm nt sf]; hcbn.
    assert (Forall (λ p, p.2 = RETRY_DELAY)
              (filter (λ p : nat * Z, p.1 ≠ default 0%nat rt) tm))
      by (by apply Forall_delay_filter).
    destruct (truthy_number rt); hcbn;
      (destruct ws as [k|]; [|done]);
      (destruct (socks !! k) as [w|]; [|done]);
      by case_bool_decide.
  - injection Hstep as <-. exec_eq. by destruct s.
Qed.

(** X23.  Retries wait a fixed delay: in every state the hook can reach
    at most one retry timer is pending, and its delay is [RETRY_DELAY]
    (3000 ms) however many attempts have failed; there is no back-off. *)
Theorem retry_delay_is_fixed (token : string) (st : RootState)
    (evs : list event) (s : hook) :
  run token evs (mount token st) = Some s →
  timers s = [] ∨ ∃ t, timers s = [(t, RETRY_DELAY)].
Proof.
  intros Hrun.
  assert (hook_inv s) as Hinv by (eapply inv_run; [apply inv_mount|done]).
  assert (Forall (λ p, p.2 = RETRY_DELAY) (timers s)) as Hall.
  { assert (Forall (λ p, p.2 = RETRY_DELAY) (timers (mount token st))) as Hm.
    { rewrite mount_eq. destruct (String.eqb token ""); [by cbn|].
      by apply fixed_delay_connect. }
    revert Hm Hrun. generalize (mount token st). clear.
    induction evs as [|ev evs IH]; intros s0 Hm Hrun; cbn in Hrun.
    - by injection Hrun as <-.
    - destruct (step token ev s0) as [s1|] eqn:Hstep; [|done]. cbn in Hrun.
      eapply IH; [|done]. by eapply fixed_delay_step. }
  destruct (inv_timers s Hinv) as [?|(t & d & Htm & _)]; [by left|].
  right. exists t. rewrite Htm in *. apply Forall_cons in Hall as [Hd _].
  cbn in Hd. by rewrite Hd.
Qed.

End Dismissed.

Lemma dismissed_notice_witness :
  let P := test_platform None in
  let evs := [EvError 0; EvClose 0; EvTimeout 1; EvError 1; EvClose 1]%nat in
  let s1 := default (initial_hook initialRoot)
              (run "tok" evs (mount "tok" initialRoot)) in
  let s2 := default (initial_hook initialRoot)
              (run "tok" [EvCleanup] (exec clearError s1)) in
  ErrorModal_isOpen s1 = true ∧
  ErrorModal_isOpen s2 = false ∧ surfaced s2 = surfaced s1.
Proof.
  intros P evs s1 s2. split; [vm_compute; reflexivity|].
  apply (dismissed_notice_stays_closed "tok" initialRoot evs [EvCleanup] s1 s2);
    vm_compute; reflexivity.
Defined.

Lemma retry_delay_witness :
  let P := test_platform None in
  let s := default (initial_hook initialRoot)
             (run "tok" [EvError 0; EvClose 0]%nat (mount "tok" initialRoot)) in
  timers s = [] ∨ ∃ t, timers s = [(t, RETRY_DELAY)].
Proof.
  intros P s.
  apply (retry_delay_is_fixed "tok" initialRoot [EvError 0; EvClose 0]%nat s).
  vm_compute; reflexivity.
Defined.
